(** * Offshore: attribute transformer and record-creation pipeline

    A shallow embedding of [lib/offshore/core/transformations.js] and
    [lib/offshore/query/dql/create.js], and the properties of the two
    that the specification states. *)

From Stdlib Require Import ZArith Lia.
From stdpp Require Import base option list strings pretty.

(** ** JavaScript values

    Objects are property lists in insertion order: the code iterates
    [_.keys(obj)] while it renames, so the order of the keys is part of
    the behaviour.  An array is an object of kind [Arr] whose keys are
    its indices, which is how [_.keys] presents it.  Only own properties
    are modelled.  JavaScript enumerates the index-like keys of an
    object first, whenever they were added: the lists follow that order
    as long as no such key is added to a plain object.  Numbers are
    integers. *)

Inductive okind : Set :=
| Plain      (* object literal: [_.isPlainObject] *)
| Arr        (* [_.isArray] *)
| Buffer     (* [instanceof Buffer] *)
| Instance.  (* any other object: a Date, a model instance *)

#[warnings="-register-all"]
Inductive value : Type :=
| VUndef
| VNull
| VBool (b : bool)
| VNum (n : Z)
| VStr (s : string)
| VFun (name : string)
| VDate (src : string)          (* [new Date(src)] *)
| VObj (k : okind) (fields : list (string * value)).

Abbreviation obj := (list (string * value)).

#[global] Instance okind_eq_dec : EqDecision okind.
Proof. solve_decision. Defined.

(** *** Predicates of the language and of lodash *)

(** [ToBoolean]. *)
Definition truthy (v : value) : bool :=
  match v with
  | VUndef | VNull => false
  | VBool b => b
  | VNum n => negb (n =? 0)%Z
  | VStr s => negb (String.eqb s "")
  | VFun _ | VDate _ | VObj _ _ => true
  end.

Definition isString (v : value) : bool :=
  match v with VStr _ => true | _ => false end.

Definition isFunction (v : value) : bool :=
  match v with VFun _ => true | _ => false end.

Definition isArray (v : value) : bool :=
  match v with VObj Arr _ => true | _ => false end.

Definition isPlainObject (v : value) : bool :=
  match v with VObj Plain _ => true | _ => false end.

(** [_.isObject]: the language type Object, functions included. *)
Definition isObject (v : value) : bool :=
  match v with VFun _ | VDate _ | VObj _ _ => true | _ => false end.

Definition isUndefined (v : value) : bool :=
  match v with VUndef => true | _ => false end.

(** *** Property lists *)

Section PropertyLists.
Context {A : Type}.

Fixpoint lookup_key (k : string) (o : list (string * A)) : option A :=
  match o with
  | [] => None
  | (k', v) :: o' => if String.eqb k k' then Some v else lookup_key k o'
  end.

(** [o[k] = v]: an existing key keeps its place, a new one goes last. *)
Fixpoint set_key (k : string) (v : A) (o : list (string * A)) : list (string * A) :=
  match o with
  | [] => [(k, v)]
  | (k', v') :: o' =>
      if String.eqb k k' then (k, v) :: o' else (k', v') :: set_key k v o'
  end.

(** [delete o[k]]. *)
Fixpoint delete_key (k : string) (o : list (string * A)) : list (string * A) :=
  match o with
  | [] => []
  | (k', v') :: o' =>
      if String.eqb k k' then delete_key k o' else (k', v') :: delete_key k o'
  end.

Definition keys (o : list (string * A)) : list string := map fst o.

Definition hasOwn (o : list (string * A)) (k : string) : bool :=
  match lookup_key k o with Some _ => true | None => false end.
End PropertyLists.

(** Own properties of a value; primitives, functions and dates have none
    that the code can reach. *)
Definition fields_of (v : value) : obj :=
  match v with VObj _ fs => fs | _ => [] end.

(** [v[k]], [undefined] when the property is missing. *)
Definition get (v : value) (k : string) : value :=
  default VUndef (lookup_key k (fields_of v)).

(** [utils.object.hasOwnProperty(v, k)]. *)
Definition hasOwnProperty (v : value) (k : string) : bool :=
  hasOwn (fields_of v) k.

(** [_.keys(v)]. *)
Definition keys_of (v : value) : list string := keys (fields_of v).

(** [a || b]. *)
Definition js_or (a b : value) : value := if truthy a then a else b.

(** [v === 'text']. *)
Definition is_text (v : value) (s : string) : bool :=
  match v with VStr s' => String.eqb s' s | _ => false end.

(** What the code can throw. *)
Inductive exn : Set :=
| Error (msg : string)     (* [throw new Error(msg)] *)
| TypeError.               (* a property read on [null] or [undefined] *)

(** [forEach] whose callback may throw. *)
Fixpoint forEach_throw {S E X : Type} (f : S → X → E + S) (l : list X) (s : S) : E + S :=
  match l with
  | [] => inr s
  | x :: l' => match f s x with
               | inl e => inl e
               | inr s' => forEach_throw f l' s'
               end
  end.

(** [forEach] whose callback may run out of recursion depth. *)
Fixpoint forEach_opt {S X : Type} (f : S → X → option S) (l : list X) (s : S) : option S :=
  match l with
  | [] => Some s
  | x :: l' => match f s x with
               | None => None
               | Some s' => forEach_opt f l' s'
               end
  end.

(** ** transformations.js *)

Module Transformation.

(** [_transformations]: attribute name to column name.  [initialize]
    stores text only. *)
Abbreviation tmap := (list (string * string)).

Record t : Type := mk {
  attributes : obj;
  _transformations : tmap
}.

(** *** initialize *)

(** The inner [forEach], over the keys of one declaration. *)
Definition initialize_key (attr : string) (decl : value)
    (T : tmap) (key : string) : exn + tmap :=
  if negb (String.eqb key "columnName") then inr T
  else match get decl key with
       | VStr c =>
           if String.eqb attr c then inr T else inr (set_key attr c T)
       | _ => inl (Error "columnName transformation must be a string")
       end.

(** The outer [forEach], over the declared attributes. *)
Definition initialize_attr (attrs : obj) (T : tmap) (attr : string) : exn + tmap :=
  let decl := default VUndef (lookup_key attr attrs) in
  if isFunction decl || isString decl then inr T
  else if negb (isObject decl) then inr T
  else forEach_throw (initialize_key attr decl) (keys_of decl) T.

Definition initialize (attrs : obj) : exn + tmap :=
  forEach_throw (initialize_attr attrs) (keys attrs) [].

(** [new Transformation(attributes, tables)]. *)
Definition new (attrs : obj) : exn + t :=
  match initialize attrs with
  | inl e => inl e
  | inr T => inr (mk attrs T)
  end.

(** [_.clone(value)], as far as its result is read here: a function
    gives a new object without properties, any other value a copy with
    the properties of the original. *)
Definition clone (v : value) : value :=
  match v with VFun _ => VObj Plain [] | _ => v end.

(** *** serialize *)

(** [self._transformations[property]] used as a property name:
    a missing entry reads as [undefined]. *)
Definition column (T : tmap) (property : string) : string :=
  default "undefined" (lookup_key property T).

(** [parentAttr ? parentAttr.type || parentAttr : null]. *)
Definition type_of (parentAttr : value) : value :=
  if truthy parentAttr then js_or (get parentAttr "type") parentAttr else VNull.

(** [self.attributes[property] ||
     self.attributes[self._transformations[property]] || parentAttr]. *)
Definition detect (tr : t) (property : string) (parentAttr : value) : value :=
  js_or (default VUndef (lookup_key property (attributes tr)))
    (js_or (default VUndef (lookup_key (column (_transformations tr) property)
                               (attributes tr)))
       parentAttr).

Definition is_date_type (type : value) : bool :=
  is_text type "date" || is_text type "datetime".

(** The date cast at the end of a visit. *)
Definition cast (o : obj) (property : string) (type : value) : obj :=
  match default VUndef (lookup_key property o) with
  | VStr s => if is_date_type type then set_key property (VDate s) o else o
  | _ => o
  end.

(** One turn of the [forEach] of [recursiveSerialize] on [property].
    The state is the object under traversal together with
    [parentAttr], which the callback assigns and the next turn reads.
    [rec] is the recursive call; it gives the new content of the
    object it was handed, which the code changes in place. *)
Definition visit (tr : t) (rec : value → value → option value)
    (st : obj * value) (property : string) : option (obj * value) :=
  let '(o, parentAttr) := st in
  if negb (hasOwn o property) then Some st
  else
    let T := _transformations tr in
    let parentAttr := detect tr property parentAttr in
    let type := type_of parentAttr in
    let v := default VUndef (lookup_key property o) in
    if isArray v && (String.eqb property "or" || String.eqb property "and") then
      r ← rec v parentAttr;
      Some (set_key property r o, parentAttr)
    else if negb (is_text type "json") && isPlainObject v then
      if hasOwn T property then
        let c := column T property in
        let o := delete_key property (set_key c v o) in
        match lookup_key c o with
        | Some moved =>
            r ← rec moved parentAttr;
            Some (set_key c r o, parentAttr)
        | None => Some (o, parentAttr)
        end
      else
        r ← rec v parentAttr;
        Some (set_key property r o, parentAttr)
    else
      let '(o, property) :=
        if hasOwn T property
        then (set_key (column T property) v (delete_key property o),
              column T property)
        else (o, property) in
      Some (cast o property type, parentAttr).

(** [recursiveSerialize(obj, parentAttr)], as the content of [obj]
    when the call returns.  [depth] bounds the nesting of calls.  The
    assignment to [values] in the text branch is made by the caller
    that holds [values], see [serialize]. *)
Fixpoint recursiveSerialize_depth (depth : nat) (tr : t)
    (obj parentAttr : value) : option value :=
  match depth with
  | 0 => None
  | S depth =>
      if negb (truthy obj) then Some obj
      else if isString obj then Some obj
      else match obj with
           | VObj k fs =>
               st ← forEach_opt (visit tr (recursiveSerialize_depth depth tr))
                      (keys fs) (fs, parentAttr);
               Some (VObj k st.1)
           | _ => Some obj
           end
  end.

(** Nesting of objects in a value. *)
Fixpoint nesting (v : value) : nat :=
  match v with
  | VObj _ fs => S (list_max (map (λ kv, nesting kv.2) fs))
  | _ => 0
  end.

Definition obj_nesting (o : obj) : nat :=
  list_max (map (λ kv, nesting kv.2) o).

Definition recursiveSerialize (tr : t) (obj parentAttr : value) : option value :=
  recursiveSerialize_depth (S (nesting obj)) tr obj parentAttr.

(** *** unserialize *)

Definition unserialize_key (T : tmap) (attributes : value)
    (values : obj) (key : string) : obj :=
  let transformed := column T key in
  if negb (hasOwnProperty attributes transformed) then values
  else
    let values := set_key key (get attributes transformed) values in
    if negb (String.eqb transformed key) then delete_key transformed values
    else values.

(** [unserialize(attributes)].  On a value without own properties
    no column is found and the clone comes back as it is. *)
Definition unserialize (tr : t) (attributes : value) : value :=
  match clone attributes with
  | VObj k values =>
      VObj k (foldl (unserialize_key (_transformations tr) attributes)
                values (keys (_transformations tr)))
  | values => values
  end.

Section Serialize.
(** The text the language gives for a function, a date or an object
    used as a property name. *)
Variable objectKey : value → string.

Definition propertyKey (v : value) : string :=
  match v with
  | VStr s => s
  | VUndef => "undefined"
  | VNull => "null"
  | VBool true => "true"
  | VBool false => "false"
  | VNum n => pretty n
  | _ => objectKey v
  end.

(** [self._transformations[name]] when truthy. *)
Definition mapped (T : tmap) (name : value) : option string :=
  match lookup_key (propertyKey name) T with
  | Some c => if String.eqb c "" then None else Some c
  | None => None
  end.

(** The [forEach] that rewrites [select], [sum], [average], [min],
    [max] and [groupBy]. *)
Definition rename_names (T : tmap) (criteria : obj) (field : string) : obj :=
  let names := default VUndef (lookup_key field criteria) in
  if truthy names && isArray names then
    set_key field
      (VObj Arr (map (λ kv, (kv.1, match mapped T kv.2 with
                                   | Some c => VStr c
                                   | None => kv.2
                                   end)) (fields_of names)))
      criteria
  else criteria.

Definition rename_sort_key (T : tmap) (sort : obj) (order : string) : obj :=
  match mapped T (VStr order) with
  | Some c => delete_key order
                (set_key c (default VUndef (lookup_key order sort)) sort)
  | None => sort
  end.

Definition rename_sort (T : tmap) (criteria : obj) : obj :=
  match lookup_key "sort" criteria with
  | Some (VObj k fs) =>
      set_key "sort" (VObj k (foldl (rename_sort_key T) fs (keys fs))) criteria
  | _ => criteria
  end.

Definition serialize_criteria (tr : t) (k : okind) (criteria : obj) : option value :=
  let T := _transformations tr in
  let criteria := rename_names T criteria "select" in
  let criteria := rename_sort T criteria in
  let criteria :=
    foldl (rename_names T) criteria ["sum"; "average"; "min"; "max"; "groupBy"] in
  let where_ := default VUndef (lookup_key "where" criteria) in
  if truthy where_ then
    w ← recursiveSerialize tr where_ VUndef;
    Some (VObj k (set_key "where" w criteria))
  else Some (VObj k criteria).

Definition serialize_schema (T : tmap) (schema : obj) (property : string) : obj :=
  if hasOwn T property
  then delete_key property
         (set_key (column T property)
            (default VUndef (lookup_key property schema)) schema)
  else schema.

(** [serialize(attributes, behavior)]: [None] is never returned
    (see [serialize_returns]); [inl] is a thrown exception. *)
Definition serialize (tr : t) (attributes behavior : value)
  : option (exn + value) :=
  let values := clone attributes in
  match values with
  | VUndef | VNull => Some (inl TypeError)
  | _ =>
      if isUndefined behavior && negb (isUndefined (get values "where")) then
        match values with
        | VObj k criteria => inr <$> serialize_criteria tr k criteria
        | _ => Some (inr values)
        end
      else if is_text behavior "schema" then
        match values with
        | VObj k schema =>
            Some (inr (VObj k (foldl (serialize_schema (_transformations tr))
                                 schema (keys schema))))
        | _ => Some (inr values)
        end
      else
        match values with
        | VStr s =>
            Some (inr (if truthy values && hasOwn (_transformations tr) s
                       then VStr (column (_transformations tr) s)
                       else values))
        | _ => inr <$> recursiveSerialize tr values VUndef
        end
  end.
End Serialize.

End Transformation.

(** ** create.js

    The pipeline writes into objects that its caller and its
    collaborators also hold, so this part works on a store: a value is a
    primitive or a reference, and an object lives in the store under its
    reference. *)

Module Create.

Inductive val : Set :=
| Undef
| Null
| Bool (b : bool)
| Num (n : Z)
| Str (s : string)
| Fun (name : string)
| Ref (l : nat).

#[global] Instance val_eq_dec : EqDecision val.
Proof. solve_decision. Defined.

Record object : Set := Object {
  kind : okind;
  props : list (string * val)
}.

Abbreviation heap := (list object).

Definition truthy (v : val) : bool :=
  match v with
  | Undef | Null => false
  | Bool b => b
  | Num n => negb (n =? 0)%Z
  | Str s => negb (String.eqb s "")
  | Fun _ | Ref _ => true
  end.

(** The object a value refers to. *)
Definition deref (h : heap) (v : val) : option object :=
  match v with Ref l => h !! l | _ => None end.

Definition props_of (h : heap) (v : val) : list (string * val) :=
  match deref h v with Some o => props o | None => [] end.

(** [v[k]]. *)
Definition get (h : heap) (v : val) (k : string) : val :=
  default Undef (lookup_key k (props_of h v)).

(** [hop(v, k)]. *)
Definition hop (h : heap) (v : val) (k : string) : bool :=
  hasOwn (props_of h v) k.

(** The store after [v[k] = x], for a [v] that takes the write: an
    object gets the property; on a number, a text or a boolean the write
    is dropped, the code not being in strict mode.  A function has no
    properties in this model.  On [null] and [undefined] the write
    throws, see [write]. *)
Definition set (h : heap) (v : val) (k : string) (x : val) : heap :=
  match v with
  | Ref l => alter (λ o, Object (kind o) (set_key k x (props o))) l h
  | _ => h
  end.

(** A new object; its reference is the next free one. *)
Definition alloc (h : heap) (o : object) : heap * val :=
  (h ++ [o], Ref (length h)).

Definition has_kind (h : heap) (v : val) (k : okind) : bool :=
  match deref h v with Some o => bool_decide (kind o = k) | None => false end.

Definition isPlainObject (h : heap) (v : val) : bool := has_kind h v Plain.
Definition isArray (h : heap) (v : val) : bool := has_kind h v Arr.

(** The elements of an array, and the array of a list of elements. *)
Definition elements (h : heap) (v : val) : list val := map snd (props_of h v).

Definition array_of (l : list val) : object :=
  Object Arr (imap (λ i x, (pretty i, x)) l).

(** *** lodash

    [_.filter(collection, predicate)]: lodash replaces a predicate
    that is [null] or [undefined] by the identity, so the elements
    kept are the truthy ones. *)
Definition filter_undefined (h : heap) (values : val) : heap * val :=
  alloc h (array_of (List.filter truthy (elements h values))).

(** [_.cloneWith(value, dealWithBuffers)]: the customizer hands a
    Buffer back as it is; anything else gets lodash's shallow clone,
    a new object with the same properties. *)
Definition cloneWith (h : heap) (v : val) : heap * val :=
  match deref h v with
  | Some o => if bool_decide (kind o = Buffer) then (h, v) else alloc h o
  | None => (h, v)
  end.

(** *** The collection and what it calls *)

(** A declaration as [hop] and property reads see it. *)
Abbreviation decl := (list (string * val)).

Record model : Set := Model {
  identity : string;
  primaryKey : string
}.

(** The queries [createBelongsTo] builds. *)
Inductive query : Set :=
| FindOrCreate (target : model) (criteria values : val)
| CreateOne (target : model) (values : val).

Record associations : Set := Associations {
  models : list (string * val);
  collections : list (string * val)
}.

Record valuesObject : Set := ValuesObject {
  values : val;
  assoc : associations
}.

(** What leaves the module, in the order it happens.  A call that
    answers at once is one event, with the arguments the callee
    receives and its answer.  A query is two: [Exec] when
    [query.exec] is called, after [query.meta] if it was,
    [Completed] when it calls back. *)
Inductive event : Set :=
| CallDefault (f : string) (this result : val)
| ValuesParser (values : val) (found : associations)
| ReduceAssociations (values result : val)
| CastRun (values result : val)
| Exec (item : string) (q : query) (meta : option val)
| Completed (item : string) (err result : val)
| Validate (values err : val)
| BeforeCreate (values err : val)
| NewDate (date : val)
| Serialize (values result : val)
| CleanValues (values result : val)
| AdapterCreate (values meta err row : val)
| Unserialize (row result : val)
| NewModel (values instance : val)
| NestedCreate (parent err : val)
| ToObject (parent result : val)
| AfterCreate (values err : val)
| CreateEach (values cb meta result : val)
| Callback (err result : val).

(** Computations on the store that record their events; they end with
    a value or with an exception, and what follows an exception does
    not run. *)
Definition M (A : Type) : Type := heap → heap * list event * (exn + A).

#[global] Instance M_ret : MRet M := λ A a h, (h, [], inr a).

#[global] Instance M_bind : MBind M :=
  λ A B f m h,
    let '(h1, l1, r) := m h in
    match r with
    | inl e => (h1, l1, inl e)
    | inr a => let '(h2, l2, b) := f a h1 in (h2, l1 ++ l2, b)
    end.

Definition store_after {R} (m : heap → heap * list event * R) (h : heap)
  : heap := (m h).1.1.
Definition trace {R} (m : heap → heap * list event * R) (h : heap)
  : list event := (m h).1.2.
Definition result {R} (m : heap → heap * list event * R) (h : heap)
  : R := (m h).2.

(** [throw e]. *)
Definition throw {A} (e : exn) : M A := λ h, (h, [], inl e).

(** Read the store. *)
Definition reads {A} (f : heap → A) : M A := λ h, (h, [], inr (f h)).

(** Change the store. *)
Definition writes (f : heap → heap) : M unit := λ h, (f h, [], inr tt).

(** Run on the store, allocating or not. *)
Definition on_store {A} (f : heap → heap * A) : M A :=
  λ h, let '(h', a) := f h in (h', [], inr a).

Definition emit (e : event) : M unit := λ h, (h, [e], inr tt).

(** A call to a collaborator: it runs on the store and is recorded
    with its answer. *)
Definition call {A} (f : heap → heap * A) (e : A → event) : M A :=
  λ h, let '(h', a) := f h in (h', [e a], inr a).

(** [null] or [undefined]. *)
Definition nothing (v : val) : bool :=
  match v with Undef | Null => true | _ => false end.

(** [v[k]]: a read on [null] or [undefined] throws. *)
Definition read (v : val) (k : string) : M val :=
  if nothing v then throw TypeError else reads (λ h, get h v k).

(** [v[k] = x]: a write on [null] or [undefined] throws.  The right-hand
    side has been evaluated by then: V8 looks at the base when it
    stores. *)
Definition write (v : val) (k : string) (x : val) : M unit :=
  if nothing v then throw TypeError else writes (λ h, set h v k x).

(** [hop(v, k)], the helper [utils.object.hasOwnProperty]: [null] has no
    property, and on [undefined] the call of
    [Object.prototype.hasOwnProperty] throws. *)
Definition has (v : val) (k : string) : M bool :=
  match v with
  | Undef => throw TypeError
  | _ => reads (λ h, hop h v k)
  end.

(** [this]: what the pipeline reads of its collection. *)
Record collection : Set := Collection {
  attributes : list (string * decl);        (* [this.attributes] *)
  transformations : Transformation.tmap;    (* [this._transformer._transformations] *)
  schema : list (string * decl);            (* [this._schema.schema] *)
  autoCreatedAt : option string;            (* a column name, or [false] *)
  autoUpdatedAt : option string;
  globalId : val                            (* [this._model.globalId] *)
}.

(** What [create] hands back to its caller when it returns. *)
Inductive returned : Set :=
| Deferred (values : val)        (* [new Deferred(this, this.create, {}, values)] *)
| Delegated (r : val)            (* what [createEach] returned *)
| Started                        (* [undefined]; the callback reports *)
| Threw (e : exn).               (* an exception leaves the module *)

(** What the caller gets: the value returned, or the exception thrown.
    The run of a call includes the callbacks of its queries; an
    exception thrown in one of them leaves the module there, and
    nothing more of the call runs. *)
Definition outcome (m : M returned) : heap → heap * list event * returned :=
  λ h, let '(h', t, r) := m h in
       (h', t, match r with inl e => Threw e | inr r => r end).

(** How an iterator of [async.each] leaves: it called [next()] itself,
    or it left a query running whose callback will. *)
Inductive started : Set :=
| Next
| Pending (q : query) (meta : option val).

Definition target (q : query) : model :=
  match q with FindOrCreate m _ _ | CreateOne m _ => m end.

Section Pipeline.
Variable self : collection.

(** Collaborators.  Each may read and write the store. *)
Variable callDefault : string → val → heap → heap * val.
Variable valuesParser : val → heap → heap * associations.
Variable reduceAssociations : val → heap → heap * val.
Variable cast_run : val → heap → heap * val.
Variable loadQuery : val → model.
Variable exec : query → option val → heap → heap * (val * val).
Variable validate beforeCreate afterCreate : val → heap → heap * val.
Variable newDate : heap → heap * val.
Variable serialize cleanValues unserialize : val → heap → heap * val.
Variable adapter_create : val → val → heap → heap * (val * val).
Variable newModel toObject : val → heap → heap * val.
Variable nested_create : val → list (string * val) → heap → heap * val.
Variable createEach : val → val → val → heap → heap * val.

(** [cb(err)] and [cb(null, model)]. *)
Definition deliver (err result : val) : M unit := emit (Callback err result).

(** **** processValues *)

(** One turn of the [for ... in this.attributes] loop. *)
Definition apply_default (values : val) (attr : string * decl) : M unit :=
  let '(key, declaration) := attr in
  own ← has values key;
  h ← reads id;
  if (negb own || bool_decide (get h values key = Undef))
     && hasOwn declaration "defaultsTo"
  then
    let defaultsTo := default Undef (lookup_key "defaultsTo" declaration) in
    match defaultsTo with
    | Fun f =>
        r ← call (callDefault f values) (CallDefault f values);
        write values key r
    | _ =>
        c ← on_store (λ h, cloneWith h defaultsTo);
        write values key c
    end
  else mret ().

Fixpoint apply_defaults (values : val) (attrs : list (string * decl)) : M unit :=
  match attrs with
  | [] => mret ()
  | attr :: attrs => apply_default values attr;; apply_defaults values attrs
  end.

Definition processValues (values : val) : M valuesObject :=
  apply_defaults values (attributes self);;
  associations ← call (valuesParser values) (ValuesParser values);
  values ← call (reduceAssociations values) (ReduceAssociations values);
  values ← call (cast_run values) (CastRun values);
  mret (ValuesObject values associations).

(** **** createBelongsTo *)

(** [attribute.collection], overridden by [attribute.model]. *)
Definition modelName_of (attribute : decl) : val :=
  let modelName := Undef in
  let modelName :=
    if hasOwn attribute "collection"
    then default Undef (lookup_key "collection" attribute) else modelName in
  if hasOwn attribute "model"
  then default Undef (lookup_key "model" attribute) else modelName.

(** The query of one payload: an upsert under the primary key the
    payload carries, or a plain create. *)
Definition query_for (target : model) (pkValue criteria payload : val) : query :=
  if truthy pkValue then FindOrCreate target criteria payload
  else CreateOne target payload.

(** The iterator up to [query.exec]. *)
Definition belongsTo_start (vo : valuesObject) (metaContainer : val)
    (item : string) : M started :=
  let payload := default Undef (lookup_key item (models (assoc vo))) in
  h ← reads id;
  if negb (isPlainObject h payload) then mret Next
  else
    let T := transformations self in
    let attrName := if hasOwn T item then Transformation.column T item else item in
    match lookup_key attrName (schema self) with
    | None => throw TypeError        (* [hop(undefined, 'collection')] *)
    | Some attribute =>
        let modelName := modelName_of attribute in
        if negb (truthy modelName) then mret Next
        else
          let model := loadQuery modelName in
          let pkValue := get h payload (primaryKey model) in
          criteria ← on_store
                       (λ h, alloc h (Object Plain [(primaryKey model, pkValue)]));
          let query := query_for model pkValue criteria payload in
          let meta := if truthy metaContainer then Some metaContainer else None in
          emit (Exec item query meta);;
          mret (Pending query meta)
    end.

(** The callback of [query.exec]; the result is what it passes to
    [next]. *)
Definition belongsTo_finish (vo : valuesObject) (item : string)
    (q : query) (meta : option val) : M val :=
  '(err, val) ← call (exec q meta) (λ r, Completed item r.1 r.2);
  if truthy err then mret err
  else
    pk ← read val (primaryKey (target q));
    write (values vo) item pk;;
    mret Undef.

(** [async.each(items, iterator, callback)].  The loop starts the
    iterators in order.  A query may call back at any time after it
    was started, before the loop starts the next iterator as well as
    after the loop is over.  The schedule says what happens next: [0]
    lets the loop start the next iterator, [S k] lets the [k]-th
    running query call back, counted modulo their number; while no
    query runs only the loop can move, and once the loop is over only
    the queries can.  [called] is the guard of [_once] around
    [callback]; [n] bounds the number of steps, and two for each item
    are enough (see [each_completes]). *)
Fixpoint each (n : nat) (vo : valuesObject) (metaContainer : val)
    (schedule : list nat) (items : list string)
    (running : list (string * query * option val)) (called : bool)
    (callback : val → M unit) : M unit :=
  match n with
  | 0 => mret ()
  | S n =>
      (* [done(err)], in the callback of the query at [k] *)
      let finish (k : nat) : M unit :=
        let i := k `mod` length running in
        match running !! i with
        | None => mret ()
        | Some (item, q, meta) =>
            let running := delete i running in
            err ← belongsTo_finish vo item q meta;
            if truthy err then
              (if called then mret () else callback err);;
              each n vo metaContainer (tl schedule) items running true callback
            else if bool_decide (items = []) && bool_decide (running = []) then
              if called then mret () else callback Null
            else each n vo metaContainer (tl schedule) items running called callback
        end in
      match items with
      | item :: items' =>
          if bool_decide (hd 0 schedule = 0) || bool_decide (running = []) then
            s ← belongsTo_start vo metaContainer item;
            let running :=
              match s with
              | Next => running
              | Pending q meta => running ++ [(item, q, meta)]
              end in
            if bool_decide (items' = []) && bool_decide (running = []) then
              (* the loop is over and [completed === 0] *)
              if called then mret () else callback Null
            else each n vo metaContainer (tl schedule) items' running called callback
          else finish (hd 0 schedule - 1)
      | [] => finish (hd 0 schedule)
      end
  end.

Definition createBelongsTo (vo : valuesObject) (schedule : list nat)
    (cb : val → M unit) (metaContainer : val) : M unit :=
  let items := keys (models (assoc vo)) in
  if bool_decide (items = []) then cb Null
  else each (2 * length items) vo metaContainer schedule items [] false cb.

(** **** beforeCallbacks *)

Definition beforeCallbacks (vo : valuesObject) (cb : val → M unit) : M unit :=
  err ← call (validate (values vo)) (Validate (values vo));
  if truthy err then cb err
  else
    err ← call (beforeCreate (values vo)) (BeforeCreate (values vo));
    if truthy err then cb err else cb Null.

(** **** createValues *)

(** The timestamp of one column; [date] is the [date] variable. *)
Definition stamp (vo : valuesObject) (column : option string) (date : val) : M val :=
  match column with
  | Some c =>
      if negb (String.eqb c "") then
        current ← read (values vo) c;
        if negb (truthy current) then
          date ← (if truthy date then mret date else call newDate NewDate);
          write (values vo) c date;;
          mret date
        else mret date
      else mret date
  | None => mret date
  end.

Definition after (values : val) : M unit :=
  err ← call (afterCreate values) (AfterCreate values);
  if truthy err then deliver err Undef
  else
    model ← call (newModel values) (NewModel values);
    deliver Null model.

Definition createValues (vo : valuesObject) (metaContainer : val) : M unit :=
  date ← stamp vo (autoCreatedAt self) Undef;
  stamp vo (autoUpdatedAt self) date;;
  values ← call (serialize (values vo)) (Serialize (values vo));
  values ← call (cleanValues values) (CleanValues values);
  '(err, row) ← call (adapter_create values metaContainer)
                   (λ r, AdapterCreate values metaContainer r.1 r.2);
  if truthy err then
    (match err with
     | Ref _ => writes (λ h, set h err "model" (globalId self))
     | _ => mret ()
     end);;
    deliver err Undef
  else
    values ← call (unserialize row) (Unserialize row);
    if bool_decide (keys (collections (assoc vo)) = []) then after values
    else
      parentModel ← call (newModel values) (NewModel values);
      err ← call (nested_create parentModel (collections (assoc vo)))
              (NestedCreate parentModel);
      if truthy err then deliver err Undef
      else
        flat ← call (toObject parentModel) (ToObject parentModel);
        after flat.

(** **** module.exports

    [a0], [a1], [a2] are [arguments[0..2]].  The function is not in
    strict mode: after [values = arguments[1]; cb = arguments[2]]
    the third parameter still holds [arguments[2]]. *)

(** The pipeline of a single record, from [processValues] on. *)
Definition create_one (values metaContainer : val) (schedule : list nat) : M unit :=
  vo ← processValues values;
  (* [createBelongsTo] is called with two arguments: its
     [metaContainer] is [undefined] *)
  createBelongsTo vo schedule
    (λ err,
       if truthy err then deliver err Undef
       else beforeCallbacks vo
              (λ err,
                 if truthy err then deliver err Undef
                 else createValues vo metaContainer))
    Undef.

Definition create (a0 a1 a2 : val) (schedule : list nat)
  : heap → heap * list event * returned :=
  outcome (
  h ← reads id;
  let '(values, cb) :=
    if isPlainObject h a0 && (isPlainObject h a1 || isArray h a1)
    then (a1, a2) else (a0, a1) in
  let metaContainer := a2 in
  values ← (if isArray h values
            then on_store (λ h, filter_undefined h values)
            else mret values);
  match cb with
  | Fun _ =>
      isArr ← reads (λ h, isArray h values);
      if (isArr : bool) then
        r ← call (createEach values cb metaContainer)
              (CreateEach values cb metaContainer);
        mret (Delegated r)
      else
        create_one values metaContainer schedule;;
        mret Started
  | _ => mret (Deferred values)
  end).
End Pipeline.

End Create.

(** ** Vocabulary of the statements *)

(** A declaration that [initialize] looks into: an object that is not a
    function. *)
Definition object_shaped (d : value) : bool :=
  isObject d && negb (isFunction d).

(** The [columnName] a declaration carries, if it is looked into. *)
Definition columnName_of (d : value) : option value :=
  if object_shaped d then lookup_key "columnName" (fields_of d) else None.

(** The error [initialize] throws. *)
Definition columnName_error : exn :=
  Error "columnName transformation must be a string".

(** What a looked-into declaration contributes to the map. *)
Definition register (attr : string) (columnName : option value)
    (T : Transformation.tmap) : exn + Transformation.tmap :=
  match columnName with
  | None => inr T
  | Some (VStr c) => inr (if String.eqb attr c then T else set_key attr c T)
  | Some _ => inl columnName_error
  end.

(** [attributes[attr]]. *)
Definition declared (attrs : obj) (attr : string) : value :=
  default VUndef (lookup_key attr attrs).

(** Every entry of the map comes from a declaration. *)
Definition entries_sound (attrs : obj) (T : Transformation.tmap) : Prop :=
  ∀ attr c, lookup_key attr T = Some c →
    columnName_of (declared attrs attr) = Some (VStr c) ∧ c ≠ attr.

(** A recursive call that returns on every value nested less than [n]
    deep, without deepening it. *)
Definition returns_below (n : nat) (rec : value → value → option value) : Prop :=
  ∀ u pa, Transformation.nesting u < n →
    ∃ u', rec u pa = Some u' ∧ Transformation.nesting u' ≤ Transformation.nesting u.

(** A well-formed object has no repeated key. *)
Definition wf_obj {A} (o : list (string * A)) : Prop := NoDup (keys o).

(** A primitive value. *)
Definition primitive (v : value) : bool :=
  match v with
  | VUndef | VNull | VBool _ | VNum _ | VStr _ => true
  | _ => false
  end.

(** The record holds primitive values only. *)
Definition all_primitive (r : obj) : Prop :=
  ∀ k v, lookup_key k r = Some v → primitive v = true.

(** The types that govern the keys [ks] of one object, as the traversal
    resolves them: [parentAttr] is carried from one key to the next. *)
Fixpoint governing (tr : Transformation.t) (parentAttr : value)
    (ks : list string) : list (string * value) :=
  match ks with
  | [] => []
  | k :: ks =>
      let parentAttr := Transformation.detect tr k parentAttr in
      (k, Transformation.type_of parentAttr) :: governing tr parentAttr ks
  end.

(** No text of the record is governed by [date] or [datetime]. *)
Definition date_free (tr : Transformation.t) (r : obj) : Prop :=
  ∀ k type s, (k, type) ∈ governing tr VUndef (keys r) →
    lookup_key k r = Some (VStr s) → Transformation.is_date_type type = false.

(** No two attributes share a column. *)
Definition columns_distinct (T : Transformation.tmap) : Prop :=
  ∀ a a' c, lookup_key a T = Some c → lookup_key a' T = Some c → a = a'.

(** No key of the record is the column of an attribute. *)
Definition no_key_is_column (T : Transformation.tmap) (r : obj) : Prop :=
  ∀ a c, lookup_key a T = Some c → c ∉ keys r.

(** The same keys with the same values. *)
Definition same_properties (o o' : obj) : Prop :=
  ∀ k, lookup_key k o = lookup_key k o'.

(** The rename of a leaf, apart from the cast. *)
Definition rename_key (T : Transformation.tmap) (o : obj) (p : string) : obj :=
  if hasOwn T p
  then set_key (Transformation.column T p)
         (default VUndef (lookup_key p o)) (delete_key p o)
  else o.

(** Every declared attribute is a key of the record. *)
Definition fully_populated (tr : Transformation.t) (r : obj) : Prop :=
  ∀ a, a ∈ keys (Transformation.attributes tr) → a ∈ keys r.

(** Sample schemas and records. *)
Definition no_text : value → string := λ _, "[object Object]".

Definition shared_column_attrs : obj :=
  [("a", VObj Plain [("columnName", VStr "c")]);
   ("b", VObj Plain [("columnName", VStr "c")])].

Definition shared_column : Transformation.t :=
  Transformation.mk shared_column_attrs [("a", "c"); ("b", "c")].

Definition column_is_key_attrs : obj :=
  [("a", VObj Plain [("columnName", VStr "b")]); ("b", VStr "integer")].

Definition column_is_key : Transformation.t :=
  Transformation.mk column_is_key_attrs [("a", "b")].

Definition one_two : obj := [("a", VNum 1); ("b", VNum 2)].

Definition person_attrs : obj :=
  [("fullName", VObj Plain [("type", VStr "string");
                            ("columnName", VStr "full_name")]);
   ("age", VStr "integer")].

Definition person : Transformation.t :=
  Transformation.mk person_attrs [("fullName", "full_name")].

Definition ada : obj := [("fullName", VStr "Ada"); ("age", VNum 36)].

(** An [and]/[or] node: an array under one of the two keys. *)
Definition is_logical (p : string) (v : value) : bool :=
  isArray v && (String.eqb p "or" || String.eqb p "and").

(** The key a visited property ends under. *)
Definition final_key (T : Transformation.tmap) (p : string) : string :=
  if hasOwn T p then Transformation.column T p else p.

(** A recursive call that hands back an object of the kind it was
    given. *)
Definition keeps_kind (rec : value → value → option value) : Prop :=
  ∀ k fs pa r, rec (VObj k fs) pa = Some r → ∃ fs', r = VObj k fs'.

(** A schema with an attribute named [or], stored under [either]. *)
Definition either_attrs : obj :=
  [("fullName", VObj Plain [("columnName", VStr "full_name")]);
   ("or", VObj Plain [("columnName", VStr "either")])].

Definition either : Transformation.t :=
  Transformation.mk either_attrs [("fullName", "full_name"); ("or", "either")].

(** A schema with an attribute named [0], stored under [first], and a
    json attribute named [or]. *)
Definition json_or_attrs : obj :=
  [("0", VObj Plain [("columnName", VStr "first")]); ("or", VStr "json")].

Definition json_or : Transformation.t :=
  Transformation.mk json_or_attrs [("0", "first")].

(** A schema with a json attribute and a date attribute. *)
Definition event_attrs : obj :=
  [("payload", VObj Plain [("type", VStr "json")]);
   ("startsAt", VObj Plain [("type", VStr "datetime");
                            ("columnName", VStr "starts_at")]);
   ("title", VObj Plain [("columnName", VStr "name")])].

Definition event_tr : Transformation.t :=
  Transformation.mk event_attrs [("startsAt", "starts_at"); ("title", "name")].

(** ** Vocabulary of the statements about create.js *)

(** A collection of pets: [kind] defaults to a text, [tags] to the
    object at reference 1, [id] to what the function [uuid] makes;
    [owner] belongs to the collection [user]. *)
Definition pet : Create.collection :=
  Create.Collection
    [("name", []);
     ("kind", [("defaultsTo", Create.Str "cat")]);
     ("tags", [("defaultsTo", Create.Ref 1)]);
     ("id", [("defaultsTo", Create.Fun "uuid")])]
    []
    [("owner", [("model", Create.Str "user")])]
    None None (Create.Str "Pet").

(** Collaborators that answer at once and change nothing, but for a
    query, which stores the record it resolves, with primary key 7. *)
Definition same : Create.val → Create.heap → Create.heap * Create.val :=
  λ v h, (h, v).

Definition accept : Create.val → Create.heap → Create.heap * Create.val :=
  λ _ h, (h, Create.Null).

Definition reject : Create.val → Create.heap → Create.heap * Create.val :=
  λ _ h, (h, Create.Str "rejected").

Definition resolve (q : Create.query) (meta : option Create.val)
    (h : Create.heap) : Create.heap * (Create.val * Create.val) :=
  (h ++ [Create.Object Instance [("id", Create.Num 7)]],
   (Create.Null, Create.Ref (length h))).

(** [create] on the collection of pets, with the given hooks. *)
Definition create_pet (validate beforeCreate : Create.val → Create.heap →
                                               Create.heap * Create.val) :=
  Create.create pet
    (λ f this h, (h, Create.Str "made"))
    (λ values h,
       (h, Create.Associations [("owner", Create.get h values "owner")] []))
    same same
    (λ _, Create.Model "user" "id")
    resolve
    validate beforeCreate accept
    (λ h, (h, Create.Str "now"))
    same same same
    (λ v m h, (h, (Create.Null, v)))
    same same
    (λ p c h, (h, Create.Null))
    (λ v cb m h, (h, Create.Undef)).

(** A store: the caller's record, the default of [tags] with an object
    nested in it, and the owner the record carries. *)
Definition pet_store : Create.heap :=
  [Create.Object Plain [("name", Create.Str "a"); ("owner", Create.Ref 2)];
   Create.Object Plain [("inner", Create.Ref 3)];
   Create.Object Plain [("email", Create.Str "e@x.com")];
   Create.Object Plain [("b", Create.Num 1)]].

(** A store with an array of one record and one [undefined]. *)
Definition batch_store : Create.heap :=
  [Create.array_of [Create.Ref 1; Create.Undef];
   Create.Object Plain [("name", Create.Str "a")]].

(** The test of [processValues] for applying the default of [key]. *)
Definition default_applies (h : Create.heap) (values : Create.val)
    (key : string) (declaration : Create.decl) : bool :=
  (negb (Create.hop h values key)
   || bool_decide (Create.get h values key = Create.Undef))
  && hasOwn declaration "defaultsTo".

(** Factories that leave the store as it is. *)
Definition pure_factories
    (callDefault : string → Create.val → Create.heap → Create.heap * Create.val)
  : Prop :=
  ∀ f this h, (callDefault f this h).1 = h.

(** The defaults that are objects are in the store, and none is the
    record at [l]. *)
Definition defaults_in_store (h : Create.heap) (l : nat)
    (attrs : list (string * Create.decl)) : Prop :=
  ∀ key declaration ld,
    (key, declaration) ∈ attrs →
    lookup_key "defaultsTo" declaration = Some (Create.Ref ld) →
    ld ≠ l ∧ is_Some (h !! ld).

(** [x] is what the default [d] gives on the store [h], in a run whose
    events are [t] and that ends on [h1]: the answer of a factory called
    on [this]; a Buffer itself; of another object a new one with the
    same kind and the same properties; any other value as it is. *)
Definition default_value (h h1 : Create.heap) (t : list Create.event)
    (this d x : Create.val) : Prop :=
  match d with
  | Create.Fun f => Create.CallDefault f this x ∈ t
  | Create.Ref ld =>
      match h !! ld with
      | Some od =>
          if bool_decide (Create.kind od = Buffer) then x = d
          else ∃ l2, x = Create.Ref l2 ∧ length h ≤ l2 ∧ h1 !! l2 = Some od
      | None => x = d
      end
  | _ => x = d
  end.

(** Events of the resolution of belongsTo payloads. *)
Definition is_resolution (e : Create.event) : bool :=
  match e with Create.Exec _ _ _ | Create.Completed _ _ _ => true | _ => false end.

(** Events of the hooks that run before the write. *)
Definition is_hook (e : Create.event) : bool :=
  match e with Create.Validate _ _ | Create.BeforeCreate _ _ => true | _ => false end.

(** The write of the record: the adapter's [create]. *)
Definition is_write (e : Create.event) : bool :=
  match e with Create.AdapterCreate _ _ _ _ => true | _ => false end.

(** The payloads whose query was started, and those whose query called
    back, in the order of the events. *)
Fixpoint dispatched (t : list Create.event) : list string :=
  match t with
  | [] => []
  | Create.Exec item _ _ :: t => item :: dispatched t
  | _ :: t => dispatched t
  end.

Fixpoint finished (t : list Create.event) : list string :=
  match t with
  | [] => []
  | Create.Completed item _ _ :: t => item :: finished t
  | _ :: t => finished t
  end.

(** The number of reports to the caller. *)
Fixpoint reports (t : list Create.event) : nat :=
  match t with
  | [] => 0
  | Create.Callback _ _ :: t => S (reports t)
  | _ :: t => reports t
  end.

(** No query called back with an error. *)
Definition no_failure (t : list Create.event) : Prop :=
  Forall (λ e, match e with
               | Create.Completed _ err _ => Create.truthy err = false
               | _ => True
               end) t.

(** A query got no context. *)
Definition without_meta (e : Create.event) : Prop :=
  match e with Create.Exec _ _ meta => meta = None | _ => True end.

(** Every event of a computation satisfies [P], from any store. *)
Definition emits_only {A} (P : Create.event → Prop) (m : Create.M A) : Prop :=
  ∀ h, Forall P (Create.trace m h).

(** A computation reports to the caller [k] times, from any store;
    one that throws has reported no more than that. *)
Definition counts {A} (k : nat) (m : Create.M A) : Prop :=
  ∀ h, match Create.result m h with
       | inr _ => reports (Create.trace m h) = k
       | inl _ => reports (Create.trace m h) ≤ k
       end.

(** Events of [processValues]. *)
Definition is_setup (e : Create.event) : bool :=
  match e with
  | Create.CallDefault _ _ _ | Create.ValuesParser _ _
  | Create.ReduceAssociations _ _ | Create.CastRun _ _ => true
  | _ => false
  end.

(** Events of [createValues], the report to the caller included. *)
Definition is_persist (e : Create.event) : bool :=
  match e with
  | Create.NewDate _ | Create.Serialize _ _ | Create.CleanValues _ _
  | Create.AdapterCreate _ _ _ _ | Create.Unserialize _ _
  | Create.NewModel _ _ | Create.NestedCreate _ _ | Create.ToObject _ _
  | Create.AfterCreate _ _ | Create.Callback _ _ => true
  | _ => false
  end.

(** A query calling back, or the report of an error to the caller. *)
Definition is_completion (e : Create.event) : bool :=
  match e with
  | Create.Completed _ _ _ | Create.Callback _ Create.Undef => true
  | _ => false
  end.

(** The payloads of the queries that run. *)
Definition items (running : list (string * Create.query * option Create.val))
  : list string :=
  map (λ x, x.1.1) running.

(** The hooks as they show in a trace: validation first; the
    before-create hook only after validation passed; after a hook
    fails, the report of its error and nothing else; after both
    passed, the events of the write. *)
Definition hooks_shape (post : list Create.event) : Prop :=
  ∃ values e tail,
    post = Create.Validate values e :: tail ∧
    if Create.truthy e then tail = [Create.Callback e Create.Undef]
    else ∃ e' tail',
           tail = Create.BeforeCreate values e' :: tail' ∧
           if Create.truthy e' then tail' = [Create.Callback e' Create.Undef]
           else Forall (λ x, is_persist x = true) tail'.

(** The declaration that [createBelongsTo] reads for a payload: under
    the column of the item when the item is mapped. *)
Definition association_of (self : Create.collection) (item : string) : Create.decl :=
  let T := Create.transformations self in
  default []
    (lookup_key (if hasOwn T item then Transformation.column T item else item)
       (Create.schema self)).

(** A store where the owner the record carries has the primary key 0. *)
Definition zero_store : Create.heap :=
  [Create.Object Plain [("name", Create.Str "a"); ("owner", Create.Ref 2)];
   Create.Object Plain [("inner", Create.Ref 3)];
   Create.Object Plain [("id", Create.Num 0); ("email", Create.Str "e@x.com")];
   Create.Object Plain [("b", Create.Num 1)]].

(** The collection a payload belongs to, as [createBelongsTo] finds it. *)
Definition target_of (self : Create.collection)
    (loadQuery : Create.val → Create.model) (item : string) : Create.model :=
  loadQuery (Create.modelName_of (association_of self item)).

(** A payload that gets a query: a plain object whose attribute names a
    collection. *)
Definition resolvable (self : Create.collection) (h : Create.heap)
    (vo : Create.valuesObject) (item : string) : bool :=
  Create.isPlainObject h
    (default Create.Undef (lookup_key item (Create.models (Create.assoc vo))))
  && Create.truthy (Create.modelName_of (association_of self item)).

(** Queries that add objects to the store and change none, and that
    answer, when they give no error, with an object they have added. *)
Definition queries_allocate
    (exec : Create.query → option Create.val → Create.heap →
            Create.heap * (Create.val * Create.val)) : Prop :=
  ∀ q m h, ∃ new,
    (exec q m h).1 = h ++ new ∧
    (Create.truthy (exec q m h).2.1 = false →
     ∃ l, (exec q m h).2.2 = Create.Ref l ∧ length h ≤ l < length (h ++ new)).

(** From [h] to [h'] the store has grown, and its objects other than
    the one at [lv] are as they were. *)
Definition persist (lv : nat) (h h' : Create.heap) : Prop :=
  length h ≤ length h' ∧ ∀ l x, l ≠ lv → h !! l = Some x → h' !! l = Some x.

(** The query of a payload is the one its primary key on the store [h1]
    selects, against the collection of its attribute. *)
Definition issued (self : Create.collection)
    (loadQuery : Create.val → Create.model) (h1 : Create.heap)
    (vo : Create.valuesObject) (e : Create.event) : Prop :=
  match e with
  | Create.Exec item q _ =>
      ∃ payload criteria,
        lookup_key item (Create.models (Create.assoc vo)) = Some payload ∧
        q = Create.query_for (target_of self loadQuery item)
              (Create.get h1 payload
                 (Create.primaryKey (target_of self loadQuery item)))
              criteria payload
  | _ => True
  end.

(** The criteria of an upsert on the store [hv]: an object with one
    property, the primary key that the payload holds on [h1]. *)
Definition by_primary_key (h1 hv : Create.heap) (q : Create.query) : Prop :=
  match q with
  | Create.FindOrCreate tgt c p =>
      Create.deref hv c =
        Some (Create.Object Plain
                [(Create.primaryKey tgt, Create.get h1 p (Create.primaryKey tgt))])
  | Create.CreateOne _ _ => True
  end.

(** A collaborator that leaves the store as it is, and one that also
    hands its argument back. *)
Definition store_neutral {A B} (f : A → Create.heap → Create.heap * B) : Prop :=
  ∀ a h, (f a h).1 = h.

Definition hands_back (f : Create.val → Create.heap → Create.heap * Create.val)
  : Prop :=
  ∀ v h, f v h = (h, v).

(** What [async.each] has done when it is over, from the store [h] with
    the payloads [its] to come and the queries [running]: [body] holds
    the queries and, after a failure, its report; [tail] is the run of
    the callback on [null], on the store [hv], when no query failed. *)
Definition resolution (self : Create.collection)
    (loadQuery : Create.val → Create.model) (cb : Create.val → Create.M unit)
    (vo : Create.valuesObject) (lv : nat) (h1 h : Create.heap)
    (its : list string)
    (running : list (string * Create.query * option Create.val))
    (called : bool) (t : list Create.event) : Prop :=
  ∃ body tail hv,
    t = body ++ tail ∧
    Forall (λ e, is_resolution e || is_completion e = true) body ∧
    dispatched body = List.filter (resolvable self h1 vo) its ∧
    Forall (issued self loadQuery h1 vo) body ∧
    (∀ x, x ∈ finished body → x ∈ its ++ items running) ∧
    persist lv h hv ∧
    (∀ k, k ∉ finished body →
       Create.get hv (Create.Ref lv) k = Create.get h (Create.Ref lv) k) ∧
    (∀ item err val,
       Create.Completed item err val ∈ body → Create.truthy err = false →
       (∃ lval, val = Create.Ref lval ∧ lval ≠ lv ∧ lval < length hv) ∧
       Create.get hv (Create.Ref lv) item =
       Create.get hv val (Create.primaryKey (target_of self loadQuery item))) ∧
    (∀ item q m, Create.Exec item q m ∈ body → by_primary_key h1 hv q) ∧
    (tail = [] ∧ (called = true ∨ ¬ no_failure body) ∨
     tail = Create.trace (cb Create.Null) hv ∧ called = false ∧
     no_failure body ∧ finished body ≡ₚ items running ++ dispatched body).

(** * Properties *)

(** ** Property lists *)

Section PropertyListFacts.
Context {A : Type}.
Implicit Types (o : list (string * A)) (k : string) (v : A).

Lemma lookup_set_eq o k v : lookup_key k (set_key k v o) = Some v.
Proof.
  induction o as [|[k' v'] o IH]; simpl.
  - by rewrite String.eqb_refl.
  - destruct (String.eqb_spec k k') as [->|Hne]; simpl.
    + by rewrite String.eqb_refl.
    + destruct (String.eqb_spec k k'); [done|]. apply IH.
Qed.

Lemma lookup_set_ne o k k' v :
  k ≠ k' → lookup_key k' (set_key k v o) = lookup_key k' o.
Proof.
  intros Hne. induction o as [|[k0 v0] o IH]; simpl.
  - destruct (String.eqb_spec k' k); [congruence|done].
  - destruct (String.eqb_spec k k0) as [->|Hk]; simpl.
    + destruct (String.eqb_spec k' k0); [congruence|done].
    + destruct (String.eqb_spec k' k0); [done|apply IH].
Qed.

Lemma lookup_delete_eq o k : lookup_key k (delete_key k o) = None.
Proof.
  induction o as [|[k' v'] o IH]; simpl; [done|].
  destruct (String.eqb_spec k k') as [->|Hne]; simpl; [done|].
  destruct (String.eqb_spec k k'); [done|apply IH].
Qed.

Lemma lookup_delete_ne o k k' :
  k ≠ k' → lookup_key k' (delete_key k o) = lookup_key k' o.
Proof.
  intros Hne. induction o as [|[k0 v0] o IH]; simpl; [done|].
  destruct (String.eqb_spec k k0) as [->|Hk]; simpl.
  - destruct (String.eqb_spec k' k0); [congruence|apply IH].
  - destruct (String.eqb_spec k' k0); [done|apply IH].
Qed.

Lemma lookup_Some_keys o k v : lookup_key k o = Some v → k ∈ keys o.
Proof.
  induction o as [|[k' v'] o IH]; simpl; [done|].
  destruct (String.eqb_spec k k') as [->|Hne]; intros H.
  - apply list_elem_of_here.
  - apply list_elem_of_further, IH, H.
Qed.

Lemma keys_lookup_Some o k : k ∈ keys o → is_Some (lookup_key k o).
Proof.
  induction o as [|[k' v'] o IH]; simpl.
  - intros H. by apply elem_of_nil in H.
  - intros H. destruct (String.eqb_spec k k') as [->|Hne]; [by eexists|].
    apply elem_of_cons in H as [H|H]; [done|by apply IH].
Qed.

Lemma lookup_None_keys o k : lookup_key k o = None ↔ k ∉ keys o.
Proof.
  split.
  - intros H Hin. apply keys_lookup_Some in Hin as [v Hv]. congruence.
  - intros H. destruct (lookup_key k o) eqn:E; [|done].
    by apply lookup_Some_keys in E.
Qed.

Lemma hasOwn_true o k : hasOwn o k = true ↔ is_Some (lookup_key k o).
Proof.
  unfold hasOwn. destruct (lookup_key k o).
  - split; [by eexists|done].
  - split; [done|by intros [??]].
Qed.

Lemma hasOwn_false o k : hasOwn o k = false ↔ lookup_key k o = None.
Proof. unfold hasOwn. by destruct (lookup_key k o). Qed.

Lemma set_key_id o k v : lookup_key k o = Some v → set_key k v o = o.
Proof.
  induction o as [|[k' v'] o IH]; simpl; [done|].
  destruct (String.eqb_spec k k') as [->|Hne]; intros H.
  - by injection H as ->.
  - by rewrite IH.
Qed.

Lemma set_key_set_key o k v w : set_key k v (set_key k w o) = set_key k v o.
Proof.
  induction o as [|[k' v'] o IH]; simpl.
  - by rewrite String.eqb_refl.
  - destruct (String.eqb_spec k k') as [->|Hne]; simpl.
    + by rewrite String.eqb_refl.
    + destruct (String.eqb_spec k k'); [done|]. by rewrite IH.
Qed.

Lemma keys_set_key_in o k v : k ∈ keys o → keys (set_key k v o) = keys o.
Proof.
  induction o as [|[k' v'] o IH]; simpl.
  - intros H. by apply elem_of_nil in H.
  - intros H. destruct (String.eqb_spec k k') as [->|Hne]; simpl; [done|].
    f_equal. apply IH. apply elem_of_cons in H as [H|H]; done.
Qed.

Lemma keys_set_key_notin o k v : k ∉ keys o → keys (set_key k v o) = keys o ++ [k].
Proof.
  induction o as [|[k' v'] o IH]; simpl; [done|].
  intros H. apply not_elem_of_cons in H as [H1 H2].
  destruct (String.eqb_spec k k'); [done|]. simpl. f_equal. by apply IH.
Qed.

Lemma delete_key_notin o k : k ∉ keys o → delete_key k o = o.
Proof.
  induction o as [|[k' v'] o IH]; simpl; [done|].
  intros H. apply not_elem_of_cons in H as [H1 H2].
  destruct (String.eqb_spec k k'); [done|]. f_equal. by apply IH.
Qed.
End PropertyListFacts.

(** ** Building the map *)

Section Initialize.
Import Transformation.

Lemma register_twice attr cn T T1 :
  register attr cn T = inr T1 → register attr cn T1 = inr T1.
Proof.
  destruct cn as [v|]; [|by intros [= <-]].
  destruct v; simpl; try done. intros [= <-].
  destruct (String.eqb attr s) eqn:E; rewrite ?E; [done|].
  by rewrite set_key_set_key.
Qed.

Lemma initialize_keys attr d ks T :
  forEach_throw (initialize_key attr d) ks T =
  if bool_decide ("columnName" ∈ ks)
  then register attr (Some (get d "columnName")) T
  else inr T.
Proof.
  revert T. induction ks as [|k ks IH]; intros T; simpl; [done|].
  unfold initialize_key at 1.
  destruct (String.eqb_spec k "columnName") as [->|Hne]; simpl.
  - destruct (get d "columnName") eqn:E; try done.
    destruct (String.eqb attr s) eqn:Es; rewrite IH; case_bool_decide;
      simpl; rewrite ?E, ?Es; try done.
    by rewrite set_key_set_key.
  - rewrite IH. case_bool_decide as H1; case_bool_decide as H2; try done.
    + exfalso. apply H2. by apply list_elem_of_further.
    + exfalso. apply elem_of_cons in H2 as [?|?]; [congruence|done].
Qed.

Lemma initialize_attr_register attrs T attr :
  initialize_attr attrs T attr =
  register attr (columnName_of (declared attrs attr)) T.
Proof.
  unfold initialize_attr, columnName_of, object_shaped. fold (declared attrs attr).
  destruct (declared attrs attr) as [| | | | |f|s|k fs] eqn:E; simpl; try done.
  rewrite initialize_keys. unfold keys_of, get. simpl.
  case_bool_decide as Hin.
  - apply keys_lookup_Some in Hin as [v ->]. done.
  - apply lookup_None_keys in Hin as ->. done.
Qed.

(** The loop fails exactly when it meets a declaration whose
    [columnName] is not text. *)
Lemma initialize_loop_error attrs ks T e :
  forEach_throw (initialize_attr attrs) ks T = inl e ↔
  e = columnName_error ∧
  ∃ attr v, attr ∈ ks ∧ columnName_of (declared attrs attr) = Some v ∧
            isString v = false.
Proof.
  revert T. induction ks as [|a ks IH]; intros T; simpl.
  - split; [done|]. intros (_ & attr & v & Hin & _). by apply elem_of_nil in Hin.
  - rewrite initialize_attr_register.
    destruct (columnName_of (declared attrs a)) as [v|] eqn:Ecn; simpl.
    + destruct v; simpl;
        try (split;
             [intros [= <-]; split; [done|];
              eexists a, _; split; [apply list_elem_of_here|by rewrite Ecn]
             | by intros [-> _]]).
      rewrite IH. split; intros (-> & attr & v & Hin & Hv & Hs); split; try done.
      * exists attr, v. split; [by apply list_elem_of_further|done].
      * exists attr, v. apply elem_of_cons in Hin as [->|Hin]; [|done].
        rewrite Ecn in Hv. injection Hv as <-. done.
    + rewrite IH. split; intros (-> & attr & v & Hin & Hv & Hs); split; try done.
      * exists attr, v. split; [by apply list_elem_of_further|done].
      * exists attr, v. apply elem_of_cons in Hin as [->|Hin]; [|done].
        congruence.
Qed.

Lemma register_sound attrs T T1 attr :
  entries_sound attrs T →
  register attr (columnName_of (declared attrs attr)) T = inr T1 →
  entries_sound attrs T1.
Proof.
  intros HT Hreg a c Hl.
  destruct (columnName_of (declared attrs attr)) as [[]|] eqn:Ecn;
    simpl in Hreg; try done; injection Hreg as <-; [|by apply HT].
  destruct (String.eqb_spec attr s) as [->|Hne]; [by apply HT|].
  destruct (decide (attr = a)) as [->|Ha].
  - rewrite lookup_set_eq in Hl. injection Hl as <-. done.
  - rewrite lookup_set_ne in Hl by done. by apply HT.
Qed.

Lemma register_keeps attrs T T1 attr a c :
  lookup_key a T = Some c →
  columnName_of (declared attrs a) = Some (VStr c) →
  register attr (columnName_of (declared attrs attr)) T = inr T1 →
  lookup_key a T1 = Some c.
Proof.
  intros Hl Ha Hreg.
  destruct (columnName_of (declared attrs attr)) as [[]|] eqn:Ecn;
    simpl in Hreg; try done; injection Hreg as <-; [|done].
  destruct (String.eqb_spec attr s) as [->|Hne]; [done|].
  destruct (decide (attr = a)) as [->|Hne'].
  - rewrite lookup_set_eq. congruence.
  - by rewrite lookup_set_ne.
Qed.

Lemma initialize_loop_sound attrs ks T T1 :
  entries_sound attrs T →
  forEach_throw (initialize_attr attrs) ks T = inr T1 →
  entries_sound attrs T1.
Proof.
  revert T. induction ks as [|a ks IH]; intros T HT; simpl.
  - by intros [= <-].
  - destruct (initialize_attr attrs T a) as [e|T'] eqn:E; [done|].
    rewrite initialize_attr_register in E. intros H.
    eapply IH; [|done]. by eapply register_sound.
Qed.

Lemma initialize_loop_keeps attrs ks T T1 a c :
  lookup_key a T = Some c →
  columnName_of (declared attrs a) = Some (VStr c) →
  forEach_throw (initialize_attr attrs) ks T = inr T1 →
  lookup_key a T1 = Some c.
Proof.
  revert T. induction ks as [|k ks IH]; intros T Hl Ha; simpl.
  - by intros [= <-].
  - destruct (initialize_attr attrs T k) as [e|T'] eqn:E; [done|].
    rewrite initialize_attr_register in E. intros H.
    eapply IH; [|done|done]. by eapply register_keeps.
Qed.

Lemma initialize_loop_complete attrs ks T T1 a c :
  a ∈ ks →
  columnName_of (declared attrs a) = Some (VStr c) → c ≠ a →
  forEach_throw (initialize_attr attrs) ks T = inr T1 →
  lookup_key a T1 = Some c.
Proof.
  revert T. induction ks as [|k ks IH]; intros T Hin Ha Hne; simpl.
  - by apply elem_of_nil in Hin.
  - destruct (initialize_attr attrs T k) as [e|T'] eqn:E; [done|].
    intros H. destruct (decide (a = k)) as [->|Hak].
    + eapply initialize_loop_keeps; [|done|done].
      rewrite initialize_attr_register, Ha in E. simpl in E.
      destruct (String.eqb_spec k c); [congruence|].
      injection E as <-. apply lookup_set_eq.
    + apply elem_of_cons in Hin as [?|Hin]; [done|]. by eapply IH.
Qed.

Lemma declared_columnName attrs attr v :
  columnName_of (declared attrs attr) = Some v ↔
  ∃ d, lookup_key attr attrs = Some d ∧ columnName_of d = Some v.
Proof.
  unfold declared. destruct (lookup_key attr attrs) as [d|]; simpl.
  - split; [by exists d|by intros (? & [= <-] & ?)].
  - split; [done|by intros (? & ? & ?)].
Qed.
End Initialize.

(** C7.  Building the map from the attribute declarations: a declaration
    that is a function or a string is skipped; the construction throws
    its configuration error exactly when some looked-into declaration
    carries a [columnName] that is not text; when it succeeds the map
    holds [attr ↦ c] exactly for the declarations of [attr] whose
    [columnName] is the text [c], different from [attr].  [serialize]
    never throws that error. *)
Theorem initialize_builds_map (attrs : obj) :
  (∀ T attr d,
     lookup_key attr attrs = Some d → isFunction d || isString d = true →
     Transformation.initialize_attr attrs T attr = inr T) ∧
  (∀ e, Transformation.initialize attrs = inl e ↔
     e = columnName_error ∧
     ∃ attr d v, lookup_key attr attrs = Some d ∧
                 columnName_of d = Some v ∧ isString v = false) ∧
  (∀ T, Transformation.initialize attrs = inr T →
     ∀ attr c, lookup_key attr T = Some c ↔
       ∃ d, lookup_key attr attrs = Some d ∧
            columnName_of d = Some (VStr c) ∧ c ≠ attr) ∧
  (∀ objectKey tr input behavior msg,
     Transformation.serialize objectKey tr input behavior ≠ Some (inl (Error msg))).
Proof.
  split; [|split; [|split]].
  - intros T attr d Hd Hskip. unfold Transformation.initialize_attr.
    rewrite Hd. simpl. by rewrite Hskip.
  - intros e. unfold Transformation.initialize. rewrite initialize_loop_error.
    split.
    + intros (He & attr & v & Hin & Hcn & Hs).
      split; [done|]. apply declared_columnName in Hcn as (d & Hd & Hcn).
      by exists attr, d, v.
    + intros (He & attr & d & v & Hd & Hcn & Hs).
      split; [done|]. exists attr, v. split; [by eapply lookup_Some_keys|].
      split; [|done]. apply declared_columnName. by exists d.
  - intros T HT attr c. split.
    + intros Hl. eapply initialize_loop_sound in HT; [|done].
      destruct (HT attr c Hl) as [Hcn Hne].
      apply declared_columnName in Hcn as (d & Hd & Hcn). by exists d.
    + intros (d & Hd & Hcn & Hne).
      eapply initialize_loop_complete; [by eapply lookup_Some_keys| |done|done].
      apply declared_columnName. by exists d.
  - intros objectKey tr input behavior msg Heq.
    unfold Transformation.serialize in Heq.
    repeat case_match; simplify_eq;
      by apply fmap_Some in Heq as (? & ? & [=]).
Qed.

(** ** The traversal returns *)

Section Nesting.
Import Transformation.
#[local] Arguments visit : simpl never.

Lemma nesting_obj k fs : nesting (VObj k fs) = S (obj_nesting fs).
Proof. done. Qed.

Lemma obj_nesting_cons k v (o : obj) :
  obj_nesting ((k, v) :: o) = Nat.max (nesting v) (obj_nesting o).
Proof. done. Qed.

Lemma obj_nesting_lookup (o : obj) k v :
  lookup_key k o = Some v → nesting v ≤ obj_nesting o.
Proof.
  induction o as [|[k' v'] o IH]; simpl; [done|].
  rewrite obj_nesting_cons. destruct (String.eqb k k').
  - intros [= ->]. lia.
  - intros H%IH. lia.
Qed.

Lemma obj_nesting_set (o : obj) k v d :
  nesting v ≤ d → obj_nesting o ≤ d → obj_nesting (set_key k v o) ≤ d.
Proof.
  intros Hv. induction o as [|[k' v'] o IH]; simpl.
  - intros _. rewrite obj_nesting_cons. unfold obj_nesting. simpl. lia.
  - rewrite obj_nesting_cons. intros Ho. destruct (String.eqb k k');
      rewrite obj_nesting_cons; [lia|]. assert (obj_nesting o ≤ d) by lia.
    apply IH in H. lia.
Qed.

Lemma obj_nesting_delete (o : obj) k d :
  obj_nesting o ≤ d → obj_nesting (delete_key k o) ≤ d.
Proof.
  induction o as [|[k' v'] o IH]; simpl; [done|].
  rewrite obj_nesting_cons. intros Ho. assert (obj_nesting o ≤ d) as H by lia.
  apply IH in H. destruct (String.eqb k k'); [done|].
  rewrite obj_nesting_cons. lia.
Qed.

Lemma obj_nesting_cast (o : obj) p type d :
  obj_nesting o ≤ d → obj_nesting (cast o p type) ≤ d.
Proof.
  intros Ho. unfold cast. repeat case_match; try done.
  apply obj_nesting_set; [simpl; lia|done].
Qed.

Lemma visit_returns tr rec n o pa p :
  returns_below n rec → obj_nesting o < n →
  ∃ o' pa', visit tr rec (o, pa) p = Some (o', pa') ∧
            obj_nesting o' ≤ obj_nesting o.
Proof.
  intros Hrec Ho. unfold visit.
  destruct (hasOwn o p) eqn:Hp; simpl; [|by eauto].
  apply hasOwn_true in Hp as [v Hv]. rewrite Hv. simpl.
  pose proof (obj_nesting_lookup _ _ _ Hv) as Hnv.
  set (pa' := detect tr p pa).
  destruct (isArray v && _) eqn:Harr.
  { destruct (Hrec v pa') as (r & -> & Hr); [lia|]. simpl.
    eexists _, _. split; [done|]. apply obj_nesting_set; lia. }
  destruct (negb _ && isPlainObject v) eqn:Hplain.
  { destruct (hasOwn (_transformations tr) p) eqn:HT.
    - set (o1 := delete_key p (set_key _ v o)).
      assert (obj_nesting o1 ≤ obj_nesting o) as Ho1.
      { apply obj_nesting_delete, obj_nesting_set; lia. }
      destruct (lookup_key _ o1) as [moved|] eqn:Hm; [|by eauto].
      apply obj_nesting_lookup in Hm as Hnm.
      destruct (Hrec moved pa') as (r & -> & Hr); [lia|]. simpl.
      eexists _, _. split; [done|]. apply obj_nesting_set; lia.
    - destruct (Hrec v pa') as (r & -> & Hr); [lia|]. simpl.
      eexists _, _. split; [done|]. apply obj_nesting_set; lia. }
  destruct (hasOwn (_transformations tr) p) eqn:HT.
  - eexists _, _. split; [done|].
    apply obj_nesting_cast, obj_nesting_set; [lia|].
    by apply obj_nesting_delete.
  - eexists _, _. split; [done|]. by apply obj_nesting_cast.
Qed.

Lemma forEach_visit_returns tr rec n ks o pa d :
  returns_below n rec → d < n → obj_nesting o ≤ d →
  ∃ o' pa', forEach_opt (visit tr rec) ks (o, pa) = Some (o', pa') ∧
            obj_nesting o' ≤ d.
Proof.
  intros Hrec Hd. revert o pa. induction ks as [|p ks IH]; intros o pa Ho; simpl.
  - by eauto.
  - destruct (visit_returns tr rec n o pa p) as (o1 & pa1 & -> & Ho1);
      [done|lia|].
    apply IH. lia.
Qed.

Lemma recursiveSerialize_depth_returns n tr :
  returns_below n (recursiveSerialize_depth n tr).
Proof.
  induction n as [|n IH]; intros v pa Hn; [lia|]. simpl.
  destruct (truthy v); simpl; [|by eauto].
  destruct (isString v); [by eauto|].
  destruct v as [| | | | | | |k fs]; try by eauto.
  rewrite nesting_obj in Hn.
  destruct (forEach_visit_returns tr (recursiveSerialize_depth n tr) n
              (keys fs) fs pa (obj_nesting fs))
    as (o' & pa' & -> & Ho'); [done|lia|done|].
  eexists. split; [done|]. unfold obj_nesting in *. simpl. lia.
Qed.

(** [recursiveSerialize] returns, on every value. *)
Lemma recursiveSerialize_returns tr v pa :
  ∃ v', recursiveSerialize tr v pa = Some v' ∧ nesting v' ≤ nesting v.
Proof. apply recursiveSerialize_depth_returns. lia. Qed.

(** More depth than needed gives the same result. *)
Lemma visit_mono tr (rec rec' : value → value → option value) st p st' :
  (∀ u pa r, rec u pa = Some r → rec' u pa = Some r) →
  visit tr rec st p = Some st' → visit tr rec' st p = Some st'.
Proof.
  intros Hrec. unfold visit. destruct st as [o pa].
  repeat case_match; try done;
    intros (r & Hr & ?)%bind_Some; apply Hrec in Hr; by rewrite Hr.
Qed.

Lemma forEach_visit_mono tr (rec rec' : value → value → option value) ks st st' :
  (∀ u pa r, rec u pa = Some r → rec' u pa = Some r) →
  forEach_opt (visit tr rec) ks st = Some st' →
  forEach_opt (visit tr rec') ks st = Some st'.
Proof.
  intros Hrec. revert st. induction ks as [|p ks IH]; intros st; simpl; [done|].
  destruct (visit tr rec st p) as [st1|] eqn:E; [|done].
  eapply visit_mono in E as ->; [|done]. apply IH.
Qed.

Lemma recursiveSerialize_depth_mono n m tr v pa r :
  n ≤ m →
  recursiveSerialize_depth n tr v pa = Some r →
  recursiveSerialize_depth m tr v pa = Some r.
Proof.
  revert m v pa r. induction n as [|n IH]; intros m v pa r Hm; [done|].
  destruct m as [|m]; [lia|]. simpl.
  repeat case_match; try done.
  intros (st & Hst & ?)%bind_Some.
  eapply forEach_visit_mono in Hst as ->; [done|].
  intros u pa' r'. apply IH. lia.
Qed.

(** The depth [recursiveSerialize] takes is enough: any larger one
    gives the same content. *)
Lemma recursiveSerialize_depth_enough n tr v pa :
  nesting v < n →
  recursiveSerialize_depth n tr v pa = recursiveSerialize tr v pa.
Proof.
  intros Hn. destruct (recursiveSerialize_returns tr v pa) as (r & Hr & _).
  rewrite Hr. eapply recursiveSerialize_depth_mono; [|exact Hr]. lia.
Qed.
End Nesting.

(** ** Renaming the keys of a record and back *)

Section RoundTrip.
Import Transformation.
#[local] Arguments visit : simpl never.

Variable T : tmap.

Lemma column_lookup a c : lookup_key a T = Some c → column T a = c.
Proof. unfold column. by intros ->. Qed.

Lemma rename_key_unmapped o p : hasOwn T p = false → rename_key T o p = o.
Proof. unfold rename_key. by intros ->. Qed.

Lemma rename_key_mapped o p c :
  lookup_key p T = Some c →
  rename_key T o p =
  set_key c (default VUndef (lookup_key p o)) (delete_key p o).
Proof.
  intros Hc. unfold rename_key. rewrite (column_lookup _ _ Hc).
  assert (hasOwn T p = true) as -> by (apply hasOwn_true; eauto). done.
Qed.

(** A key that the renames of [ks] neither leave nor reach keeps its
    value. *)
Lemma rename_frame ks o k :
  (∀ p c, p ∈ ks → lookup_key p T = Some c → p ≠ k ∧ c ≠ k) →
  lookup_key k (foldl (rename_key T) o ks) = lookup_key k o.
Proof.
  revert o. induction ks as [|p ks IH]; intros o Hks; simpl; [done|].
  rewrite IH.
  - destruct (lookup_key p T) as [c|] eqn:Hc.
    + rewrite (rename_key_mapped _ _ _ Hc).
      destruct (Hks p c) as [Hp Hck]; [apply list_elem_of_here|done|].
      rewrite lookup_set_ne, lookup_delete_ne; done.
    + rewrite rename_key_unmapped; [done|by apply hasOwn_false].
  - intros q c Hq. apply Hks. by apply list_elem_of_further.
Qed.

(** A mapped key that no rename reaches is gone after its turn. *)
Lemma rename_deleted ks o k c :
  NoDup ks → k ∈ ks → lookup_key k T = Some c →
  (∀ p c', p ∈ ks → lookup_key p T = Some c' → c' ≠ k) →
  lookup_key k (foldl (rename_key T) o ks) = None.
Proof.
  revert o. induction ks as [|p ks IH]; intros o Hnd Hin Hc Hks; simpl.
  - by apply elem_of_nil in Hin.
  - apply NoDup_cons in Hnd as [Hp Hnd].
    destruct (decide (p = k)) as [->|Hne].
    + rewrite rename_frame.
      * rewrite (rename_key_mapped _ _ _ Hc), lookup_set_ne, lookup_delete_eq;
          [done|]. eapply Hks; [apply list_elem_of_here|done].
      * intros q c' Hq Hc'. split; [by intros ->|].
        eapply Hks; [by apply list_elem_of_further|done].
    + apply elem_of_cons in Hin as [?|Hin]; [done|].
      apply IH; [done|done|done|].
      intros q c' Hq. apply Hks. by apply list_elem_of_further.
Qed.

(** The value of a mapped key ends under its column. *)
Lemma rename_moved ks o p c v :
  NoDup ks → p ∈ ks → lookup_key p T = Some c → lookup_key p o = Some v →
  c ∉ ks →
  (∀ q, q ∈ ks → lookup_key q T = Some c → q = p) →
  (∀ q c', q ∈ ks → lookup_key q T = Some c' → c' ≠ p) →
  lookup_key c (foldl (rename_key T) o ks) = Some v.
Proof.
  revert o. induction ks as [|q ks IH]; intros o Hnd Hin Hc Hv Hcks Hinj Hnot;
    simpl.
  - by apply elem_of_nil in Hin.
  - apply NoDup_cons in Hnd as [Hq Hnd].
    apply not_elem_of_cons in Hcks as [Hcq Hcks].
    destruct (decide (q = p)) as [->|Hne].
    + rewrite rename_frame.
      * by rewrite (rename_key_mapped _ _ _ Hc), Hv, lookup_set_eq.
      * intros q c' Hq' Hc'. split; [by intros ->|].
        intros ->. apply Hq. erewrite <-(Hinj q); [done| |done].
        by apply list_elem_of_further.
    + apply elem_of_cons in Hin as [?|Hin]; [done|].
      apply IH; try done.
      * destruct (lookup_key q T) as [cq|] eqn:Hcq'.
        -- rewrite (rename_key_mapped _ _ _ Hcq').
           rewrite lookup_set_ne, lookup_delete_ne; [done|done|].
           eapply Hnot; [apply list_elem_of_here|done].
        -- rewrite rename_key_unmapped; [done|by apply hasOwn_false].
      * intros q' Hq'. apply Hinj. by apply list_elem_of_further.
      * intros q' c' Hq'. apply Hnot. by apply list_elem_of_further.
Qed.
End RoundTrip.

Section Unserialize.
Import Transformation.

Variables (T : tmap) (row : value).

(** The column of [a] is in the row. *)
Let present (a : string) : Prop := hasOwnProperty row (column T a) = true.

Lemma unserialize_key_absent values a :
  ¬ present a → unserialize_key T row values a = values.
Proof.
  unfold present, unserialize_key. by destruct (hasOwnProperty _ _).
Qed.

Lemma unserialize_key_present values a :
  present a → column T a ≠ a →
  unserialize_key T row values a =
  delete_key (column T a) (set_key a (get row (column T a)) values).
Proof.
  unfold present, unserialize_key. intros -> Hne. simpl.
  by destruct (String.eqb_spec (column T a) a).
Qed.

Lemma unserialize_step_cases values a :
  unserialize_key T row values a = values ∨
  present a ∧
  (unserialize_key T row values a =
     delete_key (column T a) (set_key a (get row (column T a)) values) ∨
   unserialize_key T row values a = set_key a (get row (column T a)) values
   ∧ column T a = a).
Proof.
  unfold present, unserialize_key.
  destruct (hasOwnProperty _ _); simpl; [|by left]. right. split; [done|].
  destruct (String.eqb_spec (column T a) a); [by right|by left].
Qed.

(** A key that is neither restored nor removed keeps its value. *)
Lemma unserialize_frame ks values k :
  (∀ a, a ∈ ks → present a → a ≠ k ∧ column T a ≠ k) →
  lookup_key k (foldl (unserialize_key T row) values ks) = lookup_key k values.
Proof.
  revert values. induction ks as [|a ks IH]; intros values Hks; simpl; [done|].
  rewrite IH; [|intros a' Ha'; apply Hks; by apply list_elem_of_further].
  destruct (unserialize_step_cases values a) as [->|[Ha [->|[-> _]]]]; [done| |].
  - destruct (Hks a) as [? ?]; [apply list_elem_of_here|done|].
    by rewrite lookup_delete_ne, lookup_set_ne.
  - destruct (Hks a) as [? ?]; [apply list_elem_of_here|done|].
    by rewrite lookup_set_ne.
Qed.

(** A restored key stays restored. *)
Lemma unserialize_kept ks values a :
  lookup_key a values = Some (get row (column T a)) →
  (∀ a', a' ∈ ks → present a' → column T a' ≠ a) →
  lookup_key a (foldl (unserialize_key T row) values ks) =
  Some (get row (column T a)).
Proof.
  revert values. induction ks as [|x ks IH]; intros values Hv Hks; simpl; [done|].
  apply IH; [|intros a' Ha'; apply Hks; by apply list_elem_of_further].
  destruct (unserialize_step_cases values x) as [->|[Hx [->|[-> _]]]]; [done| |].
  - rewrite lookup_delete_ne; [|apply Hks; [apply list_elem_of_here|done]].
    destruct (decide (x = a)) as [->|Hne].
    + by rewrite lookup_set_eq.
    + by rewrite lookup_set_ne.
  - destruct (decide (x = a)) as [->|Hne].
    + by rewrite lookup_set_eq.
    + by rewrite lookup_set_ne.
Qed.

Lemma unserialize_restored ks values a :
  a ∈ ks → present a →
  (∀ a', a' ∈ ks → present a' → column T a' ≠ a) →
  lookup_key a (foldl (unserialize_key T row) values ks) =
  Some (get row (column T a)).
Proof.
  revert values. induction ks as [|x ks IH]; intros values Hin Ha Hks; simpl.
  - by apply elem_of_nil in Hin.
  - destruct (decide (x = a)) as [->|Hne].
    + apply unserialize_kept;
        [|intros a' Ha'; apply Hks; by apply list_elem_of_further].
      rewrite unserialize_key_present;
        [|done|apply Hks; [apply list_elem_of_here|done]].
      rewrite lookup_delete_ne, lookup_set_eq; [done|].
      apply Hks; [apply list_elem_of_here|done].
    + apply elem_of_cons in Hin as [?|Hin]; [done|].
      apply IH; [done|done|].
      intros a' Ha'. apply Hks. by apply list_elem_of_further.
Qed.

(** A key that is not restored stays out once it is out. *)
Lemma unserialize_absent ks values c :
  lookup_key c values = None →
  (∀ a', a' ∈ ks → present a' → a' ≠ c) →
  lookup_key c (foldl (unserialize_key T row) values ks) = None.
Proof.
  revert values. induction ks as [|x ks IH]; intros values Hv Hks; simpl; [done|].
  apply IH; [|intros a' Ha'; apply Hks; by apply list_elem_of_further].
  assert (present x → x ≠ c) as Hx by (apply Hks, list_elem_of_here).
  destruct (unserialize_step_cases values x) as [->|[Hp [->|[-> _]]]]; [done| |].
  - destruct (decide (column T x = c)) as [->|Hne].
    + apply lookup_delete_eq.
    + rewrite lookup_delete_ne, lookup_set_ne; auto.
  - rewrite lookup_set_ne; auto.
Qed.

(** The column of a restored key is removed. *)
Lemma unserialize_removed ks values a :
  a ∈ ks → present a → column T a ≠ a →
  (∀ a', a' ∈ ks → present a' → a' ≠ column T a) →
  lookup_key (column T a) (foldl (unserialize_key T row) values ks) = None.
Proof.
  revert values. induction ks as [|x ks IH]; intros values Hin Ha Hne Hks; simpl.
  - by apply elem_of_nil in Hin.
  - destruct (decide (x = a)) as [->|Hxa].
    + apply unserialize_absent;
        [|intros a' Ha'; apply Hks; by apply list_elem_of_further].
      rewrite unserialize_key_present by done. apply lookup_delete_eq.
    + apply elem_of_cons in Hin as [?|Hin]; [done|].
      apply IH; [done|done|done|].
      intros a' Ha'. apply Hks. by apply list_elem_of_further.
Qed.
End Unserialize.

Section PrimitiveRecords.
Import Transformation.
#[local] Arguments visit : simpl never.

Variable tr : t.
Variable rec : value → value → option value.

(** On a primitive value that is not cast, a visit is the rename. *)
Lemma visit_primitive o pa p v :
  lookup_key p o = Some v → primitive v = true →
  (∀ s, v = VStr s → is_date_type (type_of (detect tr p pa)) = false) →
  visit tr rec (o, pa) p =
  Some (rename_key (_transformations tr) o p, detect tr p pa).
Proof.
  intros Hv Hprim Hdate. unfold visit, rename_key.
  assert (hasOwn o p = true) as -> by (apply hasOwn_true; eauto).
  rewrite Hv. simpl.
  assert (isArray v = false) as -> by by destruct v.
  assert (isPlainObject v = false) as -> by by destruct v.
  rewrite andb_false_r. simpl.
  destruct (hasOwn (_transformations tr) p); unfold cast.
  - rewrite lookup_set_eq. simpl. destruct v; try done.
    by rewrite (Hdate s).
  - rewrite Hv. simpl. destruct v; try done. by rewrite (Hdate s).
Qed.

Lemma forEach_primitive ks o pa :
  NoDup ks →
  (∀ p, p ∈ ks → ∃ v, lookup_key p o = Some v ∧ primitive v = true) →
  (∀ p c, p ∈ ks → lookup_key p (_transformations tr) = Some c → c ∉ ks) →
  (∀ k type s, (k, type) ∈ governing tr pa ks →
     lookup_key k o = Some (VStr s) → is_date_type type = false) →
  ∃ pa', forEach_opt (visit tr rec) ks (o, pa) =
         Some (foldl (rename_key (_transformations tr)) o ks, pa').
Proof.
  revert o pa. induction ks as [|p ks IH]; intros o pa Hnd Hown Hcol Hdate;
    simpl; [by eauto|].
  apply NoDup_cons in Hnd as [Hp Hnd].
  destruct (Hown p) as (v & Hv & Hprim); [apply list_elem_of_here|].
  rewrite (visit_primitive o pa p v Hv Hprim).
  2:{ intros s ->. eapply Hdate; [apply list_elem_of_here|done]. }
  assert (∀ q, q ∈ ks →
            lookup_key q (rename_key (_transformations tr) o p) =
            lookup_key q o) as Hsame.
  { intros q Hq. unfold rename_key.
    destruct (hasOwn (_transformations tr) p) eqn:HT; [|done].
    apply hasOwn_true in HT as [c Hc].
    rewrite (column_lookup _ _ _ Hc).
    assert (c ∉ p :: ks) as [_ Hc']%not_elem_of_cons
      by (eapply Hcol; [apply list_elem_of_here|done]).
    rewrite lookup_set_ne, lookup_delete_ne; [done| |]; by intros ->. }
  apply IH; [done| | |].
  - intros q Hq. rewrite Hsame by done. apply Hown. by apply list_elem_of_further.
  - intros q c Hq Hc.
    assert (c ∉ p :: ks) as [_ ?]%not_elem_of_cons; [|done].
    eapply Hcol; [by apply list_elem_of_further|done].
  - intros k type s Hin Hk.
    assert (k ∈ ks) as Hkin.
    { clear -Hin. revert Hin. generalize (detect tr p pa).
      induction ks as [|x ks IH]; intros pa' Hin; simpl in Hin.
      - by apply elem_of_nil in Hin.
      - apply elem_of_cons in Hin as [[= -> _]|Hin];
          [apply list_elem_of_here|].
        apply list_elem_of_further. by eapply IH. }
    rewrite Hsame in Hk by done.
    eapply Hdate; [|done]. by apply list_elem_of_further.
Qed.
End PrimitiveRecords.

Section RoundTripRecord.
Import Transformation.

Variables (T : tmap) (r : obj).
Hypothesis Hwf : wf_obj r.
Hypothesis Hinj : columns_distinct T.
Hypothesis Hcol : no_key_is_column T r.

Let s : obj := foldl (rename_key T) r (keys r).

Lemma serialized_moved p c :
  p ∈ keys r → lookup_key p T = Some c → lookup_key c s = lookup_key p r.
Proof.
  intros Hp Hc. destruct (keys_lookup_Some _ _ Hp) as [v Hv]. rewrite Hv.
  apply (rename_moved T (keys r) r p c v); try done.
  - by eapply Hcol.
  - intros q _ Hq. by eapply Hinj.
  - intros q c' _ Hq ->. by eapply Hcol.
Qed.

Lemma serialized_deleted k c :
  k ∈ keys r → lookup_key k T = Some c → lookup_key k s = None.
Proof.
  intros Hk Hc. apply (rename_deleted T (keys r) r k c); try done.
  intros q c' _ Hq ->. by eapply Hcol.
Qed.

Lemma serialized_frame k :
  (∀ p, p ∈ keys r → lookup_key p T = Some k → False) →
  (k ∈ keys r → lookup_key k T = None) →
  lookup_key k s = lookup_key k r.
Proof.
  intros Hreach Hk. apply rename_frame. intros p c Hp Hc. split.
  - intros ->. rewrite Hk in Hc; done.
  - intros ->. by eapply Hreach.
Qed.

(** The column of a mapped attribute is in the serialized record
    exactly when the attribute is in the record. *)
Lemma serialized_present a c :
  lookup_key a T = Some c → hasOwn s c = true ↔ a ∈ keys r.
Proof.
  intros Hc. split.
  - intros [v Hv]%hasOwn_true.
    destruct (decide (a ∈ keys r)) as [|Hna]; [done|]. exfalso.
    rewrite serialized_frame in Hv.
    + apply lookup_Some_keys in Hv. by eapply Hcol.
    + intros p Hp Hpc. apply Hna. by rewrite (Hinj a p c).
    + intros Hin. exfalso. by eapply Hcol.
  - intros Ha. apply hasOwn_true.
    rewrite (serialized_moved a c) by done. by apply keys_lookup_Some.
Qed.

Lemma unserialized_same k :
  lookup_key k (foldl (unserialize_key T (VObj Plain s)) s (keys T)) =
  lookup_key k r.
Proof.
  assert (∀ a, a ∈ keys T →
            hasOwnProperty (VObj Plain s) (column T a) = true →
            a ∈ keys r ∧ ∃ c, lookup_key a T = Some c ∧ column T a = c)
    as Hpresent.
  { intros a Ha Hp. apply keys_lookup_Some in Ha as [c Hc].
    rewrite (column_lookup _ _ _ Hc) in Hp |- *.
    split; [by apply (serialized_present a c)|by eauto]. }
  destruct (decide (k ∈ keys r)) as [Hk|Hk].
  - destruct (lookup_key k T) as [c|] eqn:Hc.
    + (* a mapped attribute of the record: restored from its column *)
      rewrite unserialize_restored.
      * unfold get. simpl. rewrite (column_lookup _ _ _ Hc).
        rewrite (serialized_moved k c) by done.
        by destruct (keys_lookup_Some _ _ Hk) as [v ->].
      * by eapply lookup_Some_keys.
      * rewrite (column_lookup _ _ _ Hc). unfold hasOwnProperty. simpl.
        by apply (serialized_present k c).
      * intros a Ha Hp. destruct (Hpresent a Ha Hp) as (_ & c' & Hc' & ->).
        intros ->. by eapply Hcol.
    + (* an attribute that is not mapped: untouched both ways *)
      rewrite unserialize_frame.
      * apply serialized_frame; [|done]. intros p _ Hp. by eapply Hcol.
      * intros a Ha Hp. destruct (Hpresent a Ha Hp) as (_ & c' & Hc' & ->).
        split; [intros ->; congruence|]. intros ->. by eapply Hcol.
  - rewrite (proj2 (lookup_None_keys r k) Hk).
    destruct (decide (Exists (λ a, lookup_key a T = Some k) (keys r)))
      as [Hex|Hnex].
    + (* the column of an attribute of the record: removed *)
      apply Exists_exists in Hex as (a & Ha & Hc).
      rewrite <-(column_lookup _ _ _ Hc).
      apply unserialize_removed.
      * by eapply lookup_Some_keys.
      * rewrite (column_lookup _ _ _ Hc). unfold hasOwnProperty. simpl.
        by apply (serialized_present a k).
      * rewrite (column_lookup _ _ _ Hc). by intros ->.
      * intros a' Ha' Hp. destruct (Hpresent a' Ha' Hp) as (Hin & _).
        rewrite (column_lookup _ _ _ Hc). by intros ->.
    + (* any other key: not there before, not there after *)
      rewrite unserialize_frame.
      * rewrite serialized_frame; [by apply lookup_None_keys|..|done].
        intros p Hp Hpc. apply Hnex, Exists_exists. by exists p.
      * intros a Ha Hp. destruct (Hpresent a Ha Hp) as (Hin & c' & Hc' & ->).
        split; [by intros ->|]. intros ->.
        apply Hnex, Exists_exists. by exists a.
Qed.
End RoundTripRecord.

(** [serialize] returns or throws, on every input. *)
Lemma serialize_returns objectKey tr attributes behavior :
  is_Some (Transformation.serialize objectKey tr attributes behavior).
Proof.
  unfold Transformation.serialize, Transformation.serialize_criteria.
  repeat case_match; try done;
    match goal with
    | |- context [Transformation.recursiveSerialize ?tr ?v ?pa] =>
        destruct (recursiveSerialize_returns tr v pa) as (? & -> & _)
    end; done.
Qed.

(** Value mode on an object without a [where] key. *)
Lemma serialize_value_mode objectKey tr k fs :
  lookup_key "where" fs = None →
  Transformation.serialize objectKey tr (VObj k fs) VUndef =
  inr <$> Transformation.recursiveSerialize tr (VObj k fs) VUndef.
Proof.
  intros Hw. unfold Transformation.serialize, get.
  cbn [Transformation.clone fields_of isUndefined]. by rewrite Hw.
Qed.

Lemma recursiveSerialize_object tr k fs pa :
  Transformation.recursiveSerialize tr (VObj k fs) pa =
  st ← forEach_opt
         (Transformation.visit tr
            (Transformation.recursiveSerialize_depth
               (S (Transformation.obj_nesting fs)) tr))
         (keys fs) (fs, pa);
  Some (VObj k st.1).
Proof. done. Qed.

(** C1, as amended.  The record holds primitive values, has no [where]
    key, and none of its texts is governed by a date type; no two
    attributes share a column and no key of the record is a column.
    Then [serialize] in value mode followed by [unserialize] gives back
    a record with the same keys and the same values. *)
Theorem serialize_unserialize_round_trip
    (objectKey : value → string) (tr : Transformation.t) (r : obj) :
  wf_obj r → all_primitive r → lookup_key "where" r = None →
  date_free tr r →
  columns_distinct (Transformation._transformations tr) →
  no_key_is_column (Transformation._transformations tr) r →
  ∃ s r',
    Transformation.serialize objectKey tr (VObj Plain r) VUndef
      = Some (inr (VObj Plain s)) ∧
    Transformation.unserialize tr (VObj Plain s) = VObj Plain r' ∧
    same_properties r' r.
Proof.
  intros Hwf Hprim Hwhere Hdate Hinj Hcol.
  set (T := Transformation._transformations tr).
  exists (foldl (rename_key T) r (keys r)).
  eexists. split; [|split; [done|]].
  - rewrite serialize_value_mode, recursiveSerialize_object by done.
    destruct (forEach_primitive tr
                (Transformation.recursiveSerialize_depth
                   (S (Transformation.obj_nesting r)) tr)
                (keys r) r VUndef) as [pa' ->]; try done.
    + intros p Hp. apply keys_lookup_Some in Hp as [v Hv].
      exists v. split; [done|]. by eapply Hprim.
    + intros p c _ Hc. by eapply Hcol.
  - intros k. by apply unserialized_same.
Qed.

(** C1, as stated, fails when two attributes share a column: the
    record [{a: 1, b: 2}] comes back as [{a: 2, b: 2}]. *)
Lemma round_trip_fails_on_shared_column :
  Transformation.new shared_column_attrs = inr shared_column ∧
  wf_obj one_two ∧ all_primitive one_two ∧
  fully_populated shared_column one_two ∧
  lookup_key "where" one_two = None ∧
  date_free shared_column one_two ∧
  Transformation.serialize no_text shared_column (VObj Plain one_two) VUndef
    = Some (inr (VObj Plain [("c", VNum 2)])) ∧
  Transformation.unserialize shared_column (VObj Plain [("c", VNum 2)])
    = VObj Plain [("a", VNum 2); ("b", VNum 2)] ∧
  ¬ same_properties [("a", VNum 2); ("b", VNum 2)] one_two.
Proof.
  repeat split; try done.
  - by apply (bool_decide_unpack _).
  - intros k v H. simpl in H. repeat case_match; by simplify_eq.
  - intros a Ha. simpl in *. done.
  - intros k type s _ H. simpl in H. repeat case_match; by simplify_eq.
  - intros H. specialize (H "a"). done.
Qed.

(** It fails as well when a column is also a key of the record: with
    [a] stored under [b], the record [{a: 1, b: 2}] comes back as
    [{a: 1}]. *)
Lemma round_trip_fails_on_column_key :
  Transformation.new column_is_key_attrs = inr column_is_key ∧
  Transformation.serialize no_text column_is_key (VObj Plain one_two) VUndef
    = Some (inr (VObj Plain [("b", VNum 1)])) ∧
  Transformation.unserialize column_is_key (VObj Plain [("b", VNum 1)])
    = VObj Plain [("a", VNum 1)] ∧
  ¬ same_properties [("a", VNum 1)] one_two.
Proof.
  repeat split; try done. intros H. specialize (H "b"). done.
Qed.

Lemma serialize_unserialize_round_trip_witness :
  Transformation.new person_attrs = inr person ∧
  ∃ s r',
    Transformation.serialize no_text person (VObj Plain ada) VUndef
      = Some (inr (VObj Plain s)) ∧
    Transformation.unserialize person (VObj Plain s) = VObj Plain r' ∧
    same_properties r' ada.
Proof.
  split; [reflexivity|].
  apply (serialize_unserialize_round_trip no_text person ada).
  - by apply (bool_decide_unpack _).
  - intros k v H. simpl in H. repeat case_match; by simplify_eq.
  - reflexivity.
  - intros k type s Hin H. simpl in Hin.
    apply elem_of_cons in Hin as [[= -> ->]|Hin]; [reflexivity|].
    apply elem_of_cons in Hin as [[= -> ->]|Hin]; [reflexivity|].
    by apply elem_of_nil in Hin.
  - intros a a' c Ha Ha'. simpl in Ha, Ha'.
    repeat case_match; simplify_eq.
    apply String.eqb_eq in H, H0. congruence.
  - intros a c Ha. simpl in Ha. case_match; simplify_eq.
    by apply (bool_decide_unpack _).
Defined.

(** ** Logical nodes, dates and json payloads *)

Section Visits.
Import Transformation.
#[local] Arguments visit : simpl never.

Variable tr : t.

Lemma keys_set_key_value (o : obj) k v w :
  keys (set_key k v o) = keys (set_key k w o).
Proof.
  induction o as [|[k' v'] o IH]; simpl; [done|].
  destruct (String.eqb k k'); simpl; [done|]. by rewrite IH.
Qed.

Lemma keys_cast (o : obj) p type : keys (cast o p type) = keys o.
Proof.
  unfold cast. destruct (lookup_key p o) as [v|] eqn:Hv; simpl; [|done].
  destruct v; try done. case_match; [|done].
  apply keys_set_key_in. by eapply lookup_Some_keys.
Qed.

(** The visit of a logical node. *)
Lemma visit_logical rec o pa p v :
  lookup_key p o = Some v → is_logical p v = true →
  visit tr rec (o, pa) p =
  r ← rec v (detect tr p pa); Some (set_key p r o, detect tr p pa).
Proof.
  intros Hv Hl. unfold visit, is_logical in *.
  assert (hasOwn o p = true) as -> by (apply hasOwn_true; eauto).
  rewrite Hv. simpl. by rewrite Hl.
Qed.

(** The visit of anything else under a json type, or of anything that
    is not a plain object. *)
Lemma visit_leaf rec o pa p v :
  lookup_key p o = Some v → is_logical p v = false →
  negb (is_text (type_of (detect tr p pa)) "json") && isPlainObject v = false →
  visit tr rec (o, pa) p =
  Some (cast (rename_key (_transformations tr) o p)
          (final_key (_transformations tr) p) (type_of (detect tr p pa)),
        detect tr p pa).
Proof.
  intros Hv Hl Hleaf. unfold visit, is_logical, rename_key, final_key in *.
  assert (hasOwn o p = true) as -> by (apply hasOwn_true; eauto).
  rewrite Hv. simpl. rewrite Hl, Hleaf.
  by destruct (hasOwn (_transformations tr) p).
Qed.

Lemma recursiveSerialize_depth_keeps_kind n : keeps_kind (recursiveSerialize_depth n tr).
Proof.
  intros k fs pa r. destruct n as [|n]; simpl; [done|].
  intros (st & _ & [= <-])%bind_Some. by eexists.
Qed.

(** A visit leaves alone every key it neither visits nor renames onto. *)
Lemma visit_frame rec o pa p o' pa' k :
  visit tr rec (o, pa) p = Some (o', pa') →
  k ≠ p → (hasOwn (_transformations tr) p = true →
           column (_transformations tr) p ≠ k) →
  lookup_key k o' = lookup_key k o.
Proof.
  intros Hvisit Hkp Hkc. unfold visit in Hvisit.
  destruct (hasOwn o p) eqn:Hp; simpl in Hvisit; [|by simplify_eq].
  destruct (isArray _ && _).
  { apply bind_Some in Hvisit as (r & _ & [= <- _]). by rewrite lookup_set_ne. }
  destruct (negb _ && isPlainObject _).
  { destruct (hasOwn (_transformations tr) p) eqn:HT.
    - specialize (Hkc eq_refl). case_match.
      + apply bind_Some in Hvisit as (r & _ & [= <- _]).
        by rewrite lookup_set_ne, lookup_delete_ne, lookup_set_ne.
      + injection Hvisit as <- _. by rewrite lookup_delete_ne, lookup_set_ne.
    - apply bind_Some in Hvisit as (r & _ & [= <- _]). by rewrite lookup_set_ne. }
  destruct (hasOwn (_transformations tr) p) eqn:HT; injection Hvisit as <- _.
  - specialize (Hkc eq_refl). unfold cast. repeat case_match;
      rewrite ?lookup_set_ne, ?lookup_delete_ne; done.
  - unfold cast. repeat case_match; rewrite ?lookup_set_ne; done.
Qed.

(** A logical node stays a logical node through the whole loop, when no
    attribute is stored under its key. *)
Lemma forEach_keeps_logical rec ks o pa o' pa' p v :
  keeps_kind rec →
  (∀ a, lookup_key a (_transformations tr) = Some p → False) →
  forEach_opt (visit tr rec) ks (o, pa) = Some (o', pa') →
  lookup_key p o = Some v → is_logical p v = true →
  ∃ v', lookup_key p o' = Some v' ∧ is_logical p v' = true.
Proof.
  intros Hrec Hcol. revert o pa v.
  induction ks as [|q ks IH]; intros o pa v Hloop Hv Hl; simpl in Hloop.
  - injection Hloop as <- _. by eauto.
  - destruct (visit tr rec (o, pa) q) as [[o1 pa1]|] eqn:Hq; [|done].
    destruct (decide (q = p)) as [->|Hne].
    + rewrite (visit_logical _ _ _ _ _ Hv Hl) in Hq.
      apply bind_Some in Hq as (r & Hr & [= <- <-]).
      eapply IH; [done|apply lookup_set_eq|].
      unfold is_logical, isArray in *. destruct v as [| | | | | | |[] fs]; try done.
      apply Hrec in Hr as [fs' ->]. done.
    + eapply IH; [done| |done].
      rewrite (visit_frame _ _ _ _ _ _ _ Hq); [done|done|].
      intros [c Hc]%hasOwn_true. rewrite (column_lookup _ _ _ Hc).
      intros ->. by eapply Hcol.
Qed.
End Visits.


(** A run of C5: the attribute named [or] is stored under [either], yet
    the [or] node of a criteria keeps its key while the names inside it
    are rewritten. *)
Example logical_keys_not_renamed_run :
  Transformation.new either_attrs = inr either ∧
  Transformation.serialize no_text either
    (VObj Plain
       [("where",
         VObj Plain
           [("or", VObj Arr [("0", VObj Plain [("fullName", VStr "x")]);
                             ("1", VObj Plain [("or", VStr "y")])])])])
    VUndef
  = Some (inr
      (VObj Plain
         [("where",
           VObj Plain
             [("or", VObj Arr [("0", VObj Plain [("full_name", VStr "x")]);
                               ("1", VObj Plain [("either", VStr "y")])])])])).
Proof. split; reflexivity. Qed.


(** A run of C6: the text under [startsAt] becomes a date under
    [starts_at]; the payload keeps its [title] key, which would be
    renamed anywhere else. *)
Example dates_parsed_json_opaque_run :
  Transformation.new event_attrs = inr event_tr ∧
  Transformation.serialize no_text event_tr
    (VObj Plain
       [("startsAt", VStr "2016-11-28");
        ("payload", VObj Plain [("title", VStr "x")]);
        ("title", VStr "y")])
    VUndef
  = Some (inr
      (VObj Plain
         [("payload", VObj Plain [("title", VStr "x")]);
          ("starts_at", VDate "2016-11-28");
          ("name", VStr "y")])).
Proof. split; reflexivity. Qed.


(** ** The store *)

Section Store.
Import Create.

Lemma lookup_alloc (h : heap) o : (alloc h o).1 !! length h = Some o.
Proof. simpl. by rewrite lookup_app_r, Nat.sub_diag. Qed.

Lemma lookup_alloc_old (h : heap) o l x :
  h !! l = Some x → (alloc h o).1 !! l = Some x.
Proof. intros H. simpl. by apply lookup_app_l_Some. Qed.

Lemma snd_imap_pair {K} (f : nat → K) (l : list val) :
  map snd (imap (λ i x, (f i, x)) l) = l.
Proof.
  revert f. induction l as [|x l IH]; intros f; simpl; [done|].
  f_equal. apply (IH (f ∘ S)).
Qed.

Lemma elements_array_of (h : heap) (l : list val) :
  elements (alloc h (array_of l)).1 (alloc h (array_of l)).2 = l.
Proof.
  unfold elements, props_of, deref. cbn [snd alloc].
  change (h ++ [array_of l]) with (alloc h (array_of l)).1.
  rewrite lookup_alloc. apply snd_imap_pair.
Qed.

Lemma get_set (h : heap) l o k x :
  h !! l = Some o → get (set h (Ref l) k x) (Ref l) k = x.
Proof.
  intros Hl. unfold get, set, props_of, deref.
  rewrite list_lookup_alter, Hl. case_decide; [|done]. simpl.
  by rewrite lookup_set_eq.
Qed.

Lemma lookup_set (h : heap) l o k x :
  h !! l = Some o →
  set h (Ref l) k x !! l = Some (Object (kind o) (set_key k x (props o))).
Proof.
  intros Hl. unfold set. rewrite list_lookup_alter, Hl. by case_decide.
Qed.

Lemma isArray_not_plain (h : heap) v : isArray h v = true → isPlainObject h v = false.
Proof.
  unfold isArray, isPlainObject, has_kind. destruct (deref h v) as [o|]; [|done].
  intros ->%bool_decide_eq_true. done.
Qed.
Lemma get_app_old (h new : heap) l k :
  l < length h → get (h ++ new) (Ref l) k = get h (Ref l) k.
Proof.
  intros Hl. unfold get, props_of, deref. by rewrite lookup_app_l.
Qed.

Lemma get_set_ne (h : heap) l k k' x :
  k ≠ k' → get (set h (Ref l) k x) (Ref l) k' = get h (Ref l) k'.
Proof.
  intros Hne. unfold get, set, props_of, deref. rewrite list_lookup_alter.
  case_decide; [|done]. destruct (h !! l) as [o|]; [|done]. simpl.
  by rewrite lookup_set_ne.
Qed.

Lemma get_set_other (h : heap) v l k k' x :
  v ≠ Ref l → get (set h (Ref l) k x) v k' = get h v k'.
Proof.
  intros Hne. unfold get, set, props_of, deref.
  destruct v as [| | | | | |l']; try done.
  rewrite list_lookup_alter. case_decide; [congruence|done].
Qed.

Lemma persist_refl lv (h : heap) : persist lv h h.
Proof. by split. Qed.

Lemma persist_trans lv (h h' h'' : heap) :
  persist lv h h' → persist lv h' h'' → persist lv h h''.
Proof.
  intros [Hlen Hobj] [Hlen' Hobj']. split; [lia|].
  intros l x Hne Hx. by apply Hobj', Hobj.
Qed.

Lemma persist_app lv (h new : heap) : persist lv h (h ++ new).
Proof.
  split; [rewrite length_app; lia|].
  intros l x _ Hx. by apply lookup_app_l_Some.
Qed.

Lemma persist_set lv (h : heap) k x : persist lv h (set h (Ref lv) k x).
Proof.
  split; [unfold set; by rewrite length_alter|].
  intros l x' Hne Hx. unfold set. rewrite list_lookup_alter.
  case_decide; [congruence|done].
Qed.

Lemma persist_deref lv (h h' : heap) l :
  persist lv h h' → l ≠ lv → l < length h → h' !! l = h !! l.
Proof.
  intros [_ Hobj] Hne Hl.
  destruct (lookup_lt_is_Some_2 h l Hl) as [x Hx]. rewrite Hx. by apply Hobj.
Qed.

Lemma persist_get lv (h h' : heap) l k :
  persist lv h h' → l ≠ lv → l < length h →
  get h' (Ref l) k = get h (Ref l) k.
Proof.
  intros Hp Hne Hl. unfold get, props_of, deref.
  by rewrite (persist_deref lv h h' l).
Qed.

Lemma persist_plain lv (h h' : heap) l :
  persist lv h h' → l ≠ lv → l < length h →
  isPlainObject h' (Ref l) = isPlainObject h (Ref l).
Proof.
  intros Hp Hne Hl. unfold isPlainObject, has_kind, deref.
  by rewrite (persist_deref lv h h' l).
Qed.
End Store.

(** ** The pipeline *)

Section PipelineFacts.
Import Create.

Variable self : collection.
Variable callDefault : string → val → heap → heap * val.
Variable valuesParser : val → heap → heap * associations.
Variable reduceAssociations : val → heap → heap * val.
Variable cast_run : val → heap → heap * val.
Variable loadQuery : val → model.
Variable exec : query → option val → heap → heap * (val * val).
Variable validate beforeCreate afterCreate : val → heap → heap * val.
Variable newDate : heap → heap * val.
Variable serialize cleanValues unserialize : val → heap → heap * val.
Variable adapter_create : val → val → heap → heap * (val * val).
Variable newModel toObject : val → heap → heap * val.
Variable nested_create : val → list (string * val) → heap → heap * val.
Variable createEach : val → val → val → heap → heap * val.

#[local] Abbreviation create' :=
  (create self callDefault valuesParser reduceAssociations cast_run loadQuery
     exec validate beforeCreate afterCreate newDate serialize cleanValues
     unserialize adapter_create newModel toObject nested_create createEach).

#[local] Abbreviation create_one' :=
  (create_one self callDefault valuesParser reduceAssociations cast_run
     loadQuery exec validate beforeCreate afterCreate newDate serialize
     cleanValues unserialize adapter_create newModel toObject nested_create).

(** *** Running a computation *)

Lemma trace_bind {A B} (m : M A) (f : A → M B) h :
  trace (m ≫= f) h =
  trace m h ++ match result m h with
               | inr a => trace (f a) (store_after m h)
               | inl _ => []
               end.
Proof.
  unfold trace, store_after, result, mbind, M_bind.
  destruct (m h) as [[h1 l1] [e|a]]; simpl; [by rewrite app_nil_r|].
  by destruct (f a h1) as [[h2 l2] b].
Qed.

Lemma store_after_bind {A B} (m : M A) (f : A → M B) h :
  store_after (m ≫= f) h =
  match result m h with
  | inr a => store_after (f a) (store_after m h)
  | inl _ => store_after m h
  end.
Proof.
  unfold trace, store_after, result, mbind, M_bind.
  destruct (m h) as [[h1 l1] [e|a]]; simpl; [done|].
  by destruct (f a h1) as [[h2 l2] b].
Qed.

Lemma result_bind {A B} (m : M A) (f : A → M B) h :
  result (m ≫= f) h =
  match result m h with
  | inr a => result (f a) (store_after m h)
  | inl e => inl e
  end.
Proof.
  unfold trace, store_after, result, mbind, M_bind.
  destruct (m h) as [[h1 l1] [e|a]]; simpl; [done|].
  by destruct (f a h1) as [[h2 l2] b].
Qed.

Lemma run_eta {R} (m : heap → heap * list event * R) h :
  m h = (store_after m h, trace m h, result m h).
Proof. unfold trace, store_after, result. by destruct (m h) as [[??]?]. Qed.

Lemma trace_call {A} (f : heap → heap * A) e h :
  trace (call f e) h = [e (f h).2].
Proof. unfold trace, call. by destruct (f h). Qed.

Lemma result_call {A} (f : heap → heap * A) e h :
  result (call f e) h = inr (f h).2.
Proof. unfold result, call. by destruct (f h). Qed.

Lemma store_after_call {A} (f : heap → heap * A) e h :
  store_after (call f e) h = (f h).1.
Proof. unfold store_after, call. by destruct (f h). Qed.

(** What the caller gets has the trace and the store of the run. *)
Lemma trace_outcome (m : M returned) h : trace (outcome m) h = trace m h.
Proof. unfold trace, outcome. by destruct (m h) as [[??]?]. Qed.

Lemma store_after_outcome (m : M returned) h :
  store_after (outcome m) h = store_after m h.
Proof. unfold store_after, outcome. by destruct (m h) as [[??]?]. Qed.

Lemma result_outcome (m : M returned) h :
  result (outcome m) h =
  match result m h with inl e => Threw e | inr r => r end.
Proof. unfold result, outcome. by destruct (m h) as [[??]?]. Qed.

Lemma emits_only_ret {A} P (a : A) : emits_only P (mret a).
Proof. intros h. apply Forall_nil_2. Qed.

Lemma emits_only_bind {A B} P (m : M A) (f : A → M B) :
  emits_only P m → (∀ a, emits_only P (f a)) → emits_only P (m ≫= f).
Proof.
  intros Hm Hf h. rewrite trace_bind. apply Forall_app. split; [apply Hm|].
  destruct (result m h); [apply Forall_nil_2|apply Hf].
Qed.

Lemma emits_only_throw {A} P (e : exn) : emits_only P (@throw A e).
Proof. intros h. apply Forall_nil_2. Qed.

Lemma emits_only_read P v k : emits_only P (read v k).
Proof. intros h. unfold read. destruct (nothing v); apply Forall_nil_2. Qed.

Lemma emits_only_write P v k x : emits_only P (write v k x).
Proof. intros h. unfold write. destruct (nothing v); apply Forall_nil_2. Qed.

Lemma emits_only_has P v k : emits_only P (has v k).
Proof. intros h. destruct v; apply Forall_nil_2. Qed.

Lemma emits_only_reads {A} P (f : heap → A) : emits_only P (reads f).
Proof. intros h. apply Forall_nil_2. Qed.

Lemma emits_only_writes P (f : heap → heap) : emits_only P (writes f).
Proof. intros h. apply Forall_nil_2. Qed.

Lemma emits_only_on_store {A} P (f : heap → heap * A) : emits_only P (on_store f).
Proof.
  intros h. unfold trace, on_store. destruct (f h). apply Forall_nil_2.
Qed.

Lemma emits_only_emit (P : event → Prop) e : P e → emits_only P (emit e).
Proof. intros He h. by apply Forall_singleton. Qed.

Lemma emits_only_call {A} (P : event → Prop) (f : heap → heap * A) e :
  (∀ a, P (e a)) → emits_only P (call f e).
Proof.
  intros He h. unfold trace, call. destruct (f h). by apply Forall_singleton.
Qed.

Lemma emits_only_if {A} P (b : bool) (m1 m2 : M A) :
  emits_only P m1 → emits_only P m2 → emits_only P (if b then m1 else m2).
Proof. by destruct b. Qed.

(** *** Defaults *)

(** One turn of the loop on a record. *)
Lemma apply_default_run key declaration l o h :
  h !! l = Some o →
  apply_default callDefault (Ref l) (key, declaration) h =
  if default_applies h (Ref l) key declaration then
    match default Undef (lookup_key "defaultsTo" declaration) with
    | Fun f =>
        let '(h1, r) := callDefault f (Ref l) h in
        (set h1 (Ref l) key r, [CallDefault f (Ref l) r], inr ())
    | d => let '(h1, c) := cloneWith h d in (set h1 (Ref l) key c, [], inr ())
    end
  else (h, [], inr ()).
Proof.
  intros Hl. unfold apply_default, default_applies.
  set (d := default Undef (lookup_key "defaultsTo" declaration)). clearbody d.
  unfold has, mbind, M_bind, reads, id. cbn [fst snd].
  destruct ((negb _ || _) && _); [|done].
  destruct d as [| | | | |f|ld]; unfold on_store, call, write, writes; try done.
  - by destruct (callDefault f (Ref l) h) as [h1 r].
  - by destruct (cloneWith h (Ref ld)) as [h1 c].
Qed.

(** On [null] the first default that applies throws; on [undefined]
    the first test does. *)
Lemma apply_default_throws key declaration h :
  result (apply_default callDefault Undef (key, declaration)) h = inl TypeError ∧
  (hasOwn declaration "defaultsTo" = true →
   result (apply_default callDefault Null (key, declaration)) h = inl TypeError).
Proof.
  split; [done|]. intros Hd.
  unfold apply_default.
  set (d := default Undef (lookup_key "defaultsTo" declaration)). clearbody d.
  unfold result, has, mbind, M_bind, reads, id, hop, props_of.
  cbn. rewrite Hd. cbn.
  destruct d as [| | | | |f|ld]; unfold on_store, call, write; cbn; try done.
  - by destruct (callDefault f Null h).
  - by destruct (cloneWith h (Ref ld)).
Qed.

Lemma cloneWith_keeps (h : heap) d l x :
  h !! l = Some x → (cloneWith h d).1 !! l = Some x.
Proof.
  intros Hl. unfold cloneWith. destruct (deref h d) as [od|]; [|done].
  case_bool_decide; [done|]. by apply lookup_alloc_old.
Qed.

Lemma cloneWith_length (h : heap) d : length h ≤ length (cloneWith h d).1.
Proof.
  unfold cloneWith. destruct (deref h d) as [od|]; [|done].
  case_bool_decide; [done|]. simpl. rewrite length_app. lia.
Qed.

Lemma lookup_set_other (h : heap) v k x l :
  v ≠ Ref l → set h v k x !! l = h !! l.
Proof.
  intros Hne. unfold set. destruct v as [| | | | | |l']; try done.
  rewrite list_lookup_alter. case_decide; [congruence|done].
Qed.

Lemma length_set (h : heap) v k x : length (set h v k x) = length h.
Proof. unfold set. destruct v; try done. apply length_alter. Qed.

(** The default of a declaration, and whether it applies, as a record
    shows them. *)
Lemma default_applies_props (h h' : heap) l o o' key declaration :
  h !! l = Some o → h' !! l = Some o' →
  lookup_key key (props o') = lookup_key key (props o) →
  default_applies h' (Ref l) key declaration =
  default_applies h (Ref l) key declaration.
Proof.
  intros Hl Hl' Hk. unfold default_applies, hop, get, props_of, deref, hasOwn.
  by rewrite Hl, Hl', Hk.
Qed.

Lemma keys_elem_of {A} (o : list (string * A)) k v : (k, v) ∈ o → k ∈ keys o.
Proof.
  induction o as [|[k' v'] o IH]; intros Hin.
  - by apply elem_of_nil in Hin.
  - apply elem_of_cons in Hin as [[= -> ->]|Hin]; [apply list_elem_of_here|].
    apply list_elem_of_further. by apply IH.
Qed.

Lemma default_value_weaken (h h' h1 : heap) t0 t this d x :
  (∀ ld, d = Ref ld → h' !! ld = h !! ld) → length h ≤ length h' →
  default_value h' h1 t this d x → default_value h h1 (t0 ++ t) this d x.
Proof.
  intros Hd Hlen. unfold default_value. destruct d as [| | | | |f|ld]; try done.
  - intros H. apply elem_of_app. by right.
  - rewrite (Hd ld eq_refl). destruct (h !! ld) as [od|]; [|done].
    case_bool_decide; [done|]. intros (l2 & -> & Hl2 & Hod).
    exists l2. split; [done|]. split; [lia|done].
Qed.

(** The loop of [processValues] on a record [o] at [l]: the record
    keeps its place and its kind, the other objects of the store stay,
    each default that applies is in the record, and the rest of the
    record is as it was. *)
Lemma apply_defaults_run l attrs :
  pure_factories callDefault → NoDup (keys attrs) →
  ∀ h o, h !! l = Some o → defaults_in_store h l attrs →
  ∃ h1 o1 t,
    apply_defaults callDefault (Ref l) attrs h = (h1, t, inr ()) ∧
    h1 !! l = Some o1 ∧ kind o1 = kind o ∧ length h ≤ length h1 ∧
    (∀ l' x, l' ≠ l → h !! l' = Some x → h1 !! l' = Some x) ∧
    Forall (λ e, ∃ f r, e = CallDefault f (Ref l) r) t ∧
    (∀ key, key ∉ keys attrs →
       lookup_key key (props o1) = lookup_key key (props o)) ∧
    (∀ key declaration, (key, declaration) ∈ attrs →
       if default_applies h (Ref l) key declaration
       then ∃ x, lookup_key key (props o1) = Some x ∧
                 default_value h h1 t (Ref l)
                   (default Undef (lookup_key "defaultsTo" declaration)) x
       else lookup_key key (props o1) = lookup_key key (props o)).
Proof.
  intros Hpure. induction attrs as [|[key0 d0] attrs IH]; intros Hnd h o Hl Hin.
  { exists h, o, []. repeat split; try done. intros key d H.
    by apply elem_of_nil in H. }
  apply NoDup_cons in Hnd as [Hkey0 Hnd]. cbn [apply_defaults].
  unfold mbind, M_bind. rewrite (apply_default_run key0 d0 l o h Hl).
  (* the store and the record after the first turn *)
  assert (∃ h' o' t0,
    (if default_applies h (Ref l) key0 d0
     then match default Undef (lookup_key "defaultsTo" d0) with
          | Fun f => let '(h1, r) := callDefault f (Ref l) h in
                     (set h1 (Ref l) key0 r, [CallDefault f (Ref l) r], inr ())
          | d => let '(h1, c) := cloneWith h d in
                 (set h1 (Ref l) key0 c, [], inr ())
          end
     else (h, [], inr ())) = (h', t0, inr ()) ∧
    h' !! l = Some o' ∧ kind o' = kind o ∧ length h ≤ length h' ∧
    (∀ l' x, l' ≠ l → h !! l' = Some x → h' !! l' = Some x) ∧
    Forall (λ e, ∃ f r, e = CallDefault f (Ref l) r) t0 ∧
    (∀ key, key ≠ key0 → lookup_key key (props o') = lookup_key key (props o)) ∧
    (if default_applies h (Ref l) key0 d0
     then ∃ x, lookup_key key0 (props o') = Some x ∧
               ∀ h1 t, (∀ l' x, l' ≠ l → h' !! l' = Some x → h1 !! l' = Some x) →
                 default_value h h1 (t0 ++ t) (Ref l)
                   (default Undef (lookup_key "defaultsTo" d0)) x
     else o' = o)) as (h' & o' & t0 & -> & Hl' & Hk' & Hlen' & Hframe' & Ht0 & Hother & Hfirst).
  { destruct (default_applies h (Ref l) key0 d0) eqn:Happ.
    2:{ exists h, o, []. repeat split; try done. }
    assert (∀ c h0, h0 !! l = Some o → length h ≤ length h0 →
              (∀ l' x, l' ≠ l → h !! l' = Some x → h0 !! l' = Some x) →
              set h0 (Ref l) key0 c !! l
                = Some (Object (kind o) (set_key key0 c (props o))) ∧
              length h ≤ length (set h0 (Ref l) key0 c) ∧
              (∀ l' x, l' ≠ l → h !! l' = Some x →
                 set h0 (Ref l) key0 c !! l' = Some x)) as Hset.
    { intros c h0 Hl0 Hlen0 Hfr0. split; [by apply lookup_set|].
      split; [by rewrite length_set|].
      intros l' x Hne Hx. rewrite lookup_set_other by congruence. by apply Hfr0. }
    destruct (default Undef (lookup_key "defaultsTo" d0)) as [| | | | |f|ld] eqn:Hd.
    1-5: (cbn [cloneWith deref];
          match goal with
          | |- context [set ?h0 (Ref _) _ ?c] =>
              destruct (Hset c h0) as (Hs1 & Hs2 & Hs3); [done|done|done|]
          end;
          eexists _, _, []; split; [done|]; split; [exact Hs1|];
          repeat split; try done;
          [by intros key Hne; cbn; rewrite lookup_set_ne
          |eexists; split; [cbn; apply lookup_set_eq|done]]).
    - (* a factory *)
      pose proof (Hpure f (Ref l) h) as Hsame.
      destruct (callDefault f (Ref l) h) as [h1 r]. simpl in Hsame. subst h1.
      destruct (Hset r h) as (Hs1 & Hs2 & Hs3); [done|done|done|].
      eexists _, _, _. split; [done|]. split; [exact Hs1|].
      repeat split; try done.
      + apply Forall_singleton. by eexists _, _.
      + intros key Hne. cbn. by rewrite lookup_set_ne.
      + eexists. split; [cbn; apply lookup_set_eq|].
        intros h1 t _. cbn. apply list_elem_of_here.
    - (* an object *)
      destruct (Hin key0 d0 ld) as [Hne [od Hod]]; [apply list_elem_of_here| |].
      { destruct (lookup_key "defaultsTo" d0); by simplify_eq/=. }
      pose proof (cloneWith_keeps h (Ref ld)) as Hkeep.
      pose proof (cloneWith_length h (Ref ld)) as Hlen1.
      assert (default_value_clone :
        ∀ h1 t, (∀ l' x, l' ≠ l → (cloneWith h (Ref ld)).1 !! l' = Some x →
                           h1 !! l' = Some x) →
                default_value h h1 t (Ref l) (Ref ld) (cloneWith h (Ref ld)).2).
      { intros h1 t Hfr. unfold default_value, cloneWith, deref. rewrite Hod.
        case_bool_decide; [done|]. cbn [alloc fst snd].
        exists (length h). split; [done|]. split; [done|].
        apply Hfr.
        - intros Heq. apply lookup_lt_Some in Hl. lia.
        - unfold cloneWith, deref. rewrite Hod.
          rewrite bool_decide_eq_false_2 by done. apply lookup_alloc. }
      destruct (cloneWith h (Ref ld)) as [h1 c]. cbn [fst snd] in *.
      destruct (Hset c h1) as (Hs1 & Hs2 & Hs3); [by apply Hkeep|done| |].
      { intros l' x _ Hx. by apply Hkeep. }
      eexists _, _, []. split; [done|]. split; [exact Hs1|].
      repeat split; try done.
      + intros key Hne'. cbn. by rewrite lookup_set_ne.
      + eexists. split; [cbn; apply lookup_set_eq|].
        intros h2 t Hfr. apply default_value_clone.
        intros l' x Hne' Hx. apply Hfr; [done|].
        rewrite lookup_set_other by congruence. done. }
  destruct (IH Hnd h' o' Hl') as (h1 & o1 & t & -> & Hl1 & Hk1 & Hlen1 & Hframe1
                                   & Ht & Hout & Hattrs).
  { intros key d ld Hkd Hd. destruct (Hin key d ld) as [Hne [od Hod]];
      [by apply list_elem_of_further|done|].
    split; [done|]. exists od. by apply Hframe'. }
  exists h1, o1, (t0 ++ t). split; [done|]. split; [done|].
  split; [congruence|]. split; [lia|]. split; [by auto|].
  split; [by apply Forall_app|]. split.
  - intros key [Hne Hnin]%not_elem_of_cons. rewrite Hout by done. by apply Hother.
  - intros key d [[= -> ->]|Hkd]%elem_of_cons.
    + destruct (default_applies h (Ref l) key0 d0).
      * destruct Hfirst as (x & Hx & Hval). exists x.
        split; [by rewrite Hout|]. by apply Hval.
      * subst o'. by apply Hout.
    + assert (key ≠ key0) as Hne.
      { intros ->. apply Hkey0. by eapply keys_elem_of. }
      specialize (Hattrs key d Hkd).
      rewrite (default_applies_props h h' l o o') in Hattrs by auto.
      destruct (default_applies h (Ref l) key d).
      * destruct Hattrs as (x & Hx & Hval). exists x. split; [done|].
        eapply default_value_weaken; [|done|done].
        intros ld Hd. destruct (Hin key d ld) as [Hne' [od Hod]];
          [by apply list_elem_of_further| |].
        { destruct (lookup_key "defaultsTo" d); by simplify_eq/=. }
        rewrite Hod. by apply Hframe'.
      * rewrite Hattrs. by apply Hother.
Qed.

#[local] Abbreviation processValues' :=
  (processValues self callDefault valuesParser reduceAssociations cast_run).

(** What follows the loop in [processValues]. *)
Lemma processValues_run values (h h1 : heap) setup :
  apply_defaults callDefault values (attributes self) h = (h1, setup, inr ()) →
  processValues' values h =
  let '(h2, found) := valuesParser values h1 in
  let '(h3, reduced) := reduceAssociations values h2 in
  let '(h4, typed) := cast_run reduced h3 in
  (h4,
   setup ++ [ValuesParser values found; ReduceAssociations values reduced;
             CastRun reduced typed],
   inr (ValuesObject typed found)).
Proof.
  intros Hrun. unfold processValues, mbind, M_bind, call, mret, M_ret.
  rewrite Hrun.
  destruct (valuesParser values h1) as [h2 found].
  destruct (reduceAssociations values h2) as [h3 reduced].
  destruct (cast_run reduced h3) as [h4 typed]. done.
Qed.


(** [create] on a single record with a callback runs the pipeline on
    the reference it was given. *)
Lemma create_single l o f a2 schedule (h : heap) :
  h !! l = Some o → kind o ≠ Arr →
  trace (create' (Ref l) (Fun f) a2 schedule) h =
    trace (create_one' (Ref l) a2 schedule) h ∧
  result (create' (Ref l) (Fun f) a2 schedule) h =
    match result (create_one' (Ref l) a2 schedule) h with
    | inl e => Threw e
    | inr _ => Started
    end.
Proof.
  intros Hl Hkind.
  unfold trace, result, create, outcome, mbind, M_bind, reads, mret, M_ret, id.
  unfold isPlainObject, isArray, has_kind, deref. rewrite Hl.
  cbn [orb]. rewrite andb_false_r.
  repeat first [ rewrite Hl
               | rewrite (bool_decide_eq_false_2 (kind o = Arr)) by done
               | progress cbv beta iota ].
  destruct (create_one' (Ref l) a2 schedule h) as [[h' t] [e|u]];
    cbn; by rewrite ?app_nil_r.
Qed.

(** C10.  [create] on a record [o] at [l] with a callback, with
    factories that leave the store as it is: the first collaborator to
    see the values, the parser, is called with the caller's own
    reference on a store where the object at that reference holds each
    default that applies; until then the pipeline has called factories
    and nothing else, and no other object stands for the record. *)
Theorem create_writes_defaults_into_input l o f a2 schedule (h : heap) :
  pure_factories callDefault →
  NoDup (keys (attributes self)) →
  h !! l = Some o → kind o ≠ Arr →
  defaults_in_store h l (attributes self) →
  ∃ h1 o1 setup rest,
    trace (create' (Ref l) (Fun f) a2 schedule) h =
      setup ++ ValuesParser (Ref l) (valuesParser (Ref l) h1).2 :: rest ∧
    Forall (λ e, ∃ g r, e = CallDefault g (Ref l) r) setup ∧
    h1 !! l = Some o1 ∧ kind o1 = kind o ∧
    (∀ key declaration, (key, declaration) ∈ attributes self →
       default_applies h (Ref l) key declaration = true →
       ∃ x, lookup_key key (props o1) = Some x ∧
            get h1 (Ref l) key = x ∧
            default_value h h1 setup (Ref l)
              (default Undef (lookup_key "defaultsTo" declaration)) x) ∧
    (∀ key, lookup_key key (props o1) = lookup_key key (props o) ∨
            ∃ declaration, (key, declaration) ∈ attributes self ∧
                           default_applies h (Ref l) key declaration = true).
Proof.
  intros Hpure Hnd Hl Hkind Hin.
  destruct (apply_defaults_run l (attributes self) Hpure Hnd h o Hl Hin)
    as (h1 & o1 & setup & Hrun & Hl1 & Hk & _ & Hframe & Hsetup & Hout & Hattrs).
  pose proof (processValues_run (Ref l) h h1 setup Hrun) as Hpv.
  destruct (create_single l o f a2 schedule h Hl Hkind) as [-> _].
  unfold create_one. rewrite trace_bind.
  unfold trace at 1. rewrite Hpv.
  destruct (valuesParser (Ref l) h1) as [h2 found] eqn:Hvp.
  destruct (reduceAssociations (Ref l) h2) as [h3 reduced].
  destruct (cast_run reduced h3) as [h4 typed]. cbn [fst snd].
  exists h1, o1, setup. eexists. split.
  { rewrite Hvp. cbn [snd]. rewrite <-app_assoc. cbn [app]. done. }
  split; [done|]. split; [done|]. split; [done|]. split.
  - intros key d Hkd Happ. specialize (Hattrs key d Hkd). rewrite Happ in Hattrs.
    destruct Hattrs as (x & Hx & Hval). exists x. split; [done|]. split; [|done].
    unfold get, props_of, deref. by rewrite Hl1, Hx.
  - intros key. destruct (decide (key ∈ keys (attributes self))) as [Hk'|Hk'].
    + apply list_elem_of_fmap in Hk' as ([key' d] & -> & Hkd).
      specialize (Hattrs key' d Hkd). cbn.
      destruct (default_applies h (Ref l) key' d) eqn:Happ; [|by left].
      right. by exists d.
    + left. by apply Hout.
Qed.

(** C9, as amended.  Given an array, [create] hands [createEach] a new
    array that holds the truthy entries of the given one, in their
    order: entries that are [undefined] or [null] are removed, records
    stay. *)
Theorem create_keeps_truthy_entries a0 f a2 schedule (h : heap) :
  isArray h a0 = true →
  let kept := List.filter truthy (elements h a0) in
  let batch := alloc h (array_of kept) in
  elements batch.1 batch.2 = kept ∧
  create' a0 (Fun f) a2 schedule h =
    let '(h', r) := createEach batch.2 (Fun f) a2 batch.1 in
    (h', [CreateEach batch.2 (Fun f) a2 r], Delegated r).
Proof.
  intros Harr kept batch. split; [apply elements_array_of|].
  unfold create, outcome, mbind, M_bind, reads, on_store, call, mret, M_ret, id.
  rewrite (isArray_not_plain _ _ Harr). cbn [andb]. rewrite Harr.
  unfold filter_undefined, isArray, has_kind, deref. fold kept. subst batch.
  cbn [alloc fst snd]. rewrite lookup_app_r, Nat.sub_diag by done.
  cbn [lookup list_lookup array_of kind]. rewrite bool_decide_eq_true_2 by done.
  destruct (createEach _ _ _ _) as [h' r]. by rewrite app_nil_r.
Qed.

(** *** The stages of the pipeline *)

Ltac emits :=
  repeat first
    [ apply emits_only_ret | apply emits_only_reads | apply emits_only_writes
    | apply emits_only_read | apply emits_only_write | apply emits_only_has
    | apply emits_only_throw | apply emits_only_on_store
    | apply emits_only_call; intros; done
    | apply emits_only_emit; done
    | apply emits_only_bind; [|intros ?]
    | apply emits_only_if
    | progress case_match ].

Lemma apply_defaults_emits values attrs :
  emits_only (λ e, is_setup e = true) (apply_defaults callDefault values attrs).
Proof.
  induction attrs as [|[key declaration] attrs IH]; simpl; [emits|].
  apply emits_only_bind; [|done]. unfold apply_default. emits.
Qed.

Lemma processValues_emits v :
  emits_only (λ e, is_setup e = true)
    (processValues self callDefault valuesParser reduceAssociations cast_run v).
Proof.
  unfold processValues. apply emits_only_bind; [apply apply_defaults_emits|].
  intros _. emits.
Qed.

Lemma createValues_emits vo meta :
  emits_only (λ e, is_persist e = true)
    (createValues self afterCreate newDate serialize cleanValues unserialize
       adapter_create newModel toObject nested_create vo meta).
Proof. unfold createValues, stamp, after, deliver. emits. Qed.

(** What an iterator records when it starts. *)
Lemma belongsTo_start_trace vo meta item h :
  match result (belongsTo_start self loadQuery vo meta item) h with
  | inl _ => trace (belongsTo_start self loadQuery vo meta item) h = []
  | inr s =>
      trace (belongsTo_start self loadQuery vo meta item) h =
        match s with
        | Next => []
        | Pending q m => [Exec item q m]
        end ∧
      ∀ q m, s = Pending q m → m = if truthy meta then Some meta else None
  end.
Proof.
  unfold belongsTo_start, trace, result, mbind, M_bind, reads, on_store, emit,
    mret, M_ret, throw, id. simpl.
  destruct (isPlainObject h _); simpl; [|done].
  destruct (lookup_key _ (schema self)) as [attribute|]; simpl; [|done].
  destruct (truthy (modelName_of _)); simpl; [|done].
  split; [done|]. by intros q m [= _ <-].
Qed.

(** What the callback of a query does. *)
Lemma belongsTo_finish_run vo item q m h :
  belongsTo_finish exec vo item q m h =
  let '(h1, (err, val)) := exec q m h in
  if truthy err then (h1, [Completed item err val], inr err)
  else if nothing val || nothing (values vo)
       then (h1, [Completed item err val], inl TypeError)
       else (set h1 (values vo) item (get h1 val (primaryKey (target q))),
             [Completed item err val], inr Undef).
Proof.
  unfold belongsTo_finish, mbind, M_bind, call, read, write, reads, writes,
    throw, mret, M_ret.
  destruct (exec q m h) as [h1 [err val]]. simpl.
  destruct (truthy err); [done|].
  destruct (nothing val); [done|]. simpl. by destruct (nothing (values vo)).
Qed.

(** The callback of a query records that it was called; it throws only
    when the query gave no error. *)
Lemma belongsTo_finish_trace vo item q m h :
  ∃ err val,
    trace (belongsTo_finish exec vo item q m) h = [Completed item err val] ∧
    match result (belongsTo_finish exec vo item q m) h with
    | inr e => truthy err = truthy e ∧ (truthy err = true → e = err)
    | inl _ => truthy err = false
    end.
Proof.
  unfold trace, result. rewrite belongsTo_finish_run.
  destruct (exec q m h) as [h1 [err val]]. exists err, val.
  destruct (truthy err) eqn:E; [done|].
  by destruct (nothing val || nothing (values vo)).
Qed.

Lemma finished_app t t' : finished (t ++ t') = finished t ++ finished t'.
Proof.
  induction t as [|e t IH]; simpl; [done|]. destruct e; simpl; by rewrite ?IH.
Qed.

Lemma dispatched_app t t' : dispatched (t ++ t') = dispatched t ++ dispatched t'.
Proof.
  induction t as [|e t IH]; simpl; [done|]. destruct e; simpl; by rewrite ?IH.
Qed.

(** [async.each] takes no more steps than [n] allows. *)
Lemma each_emits P (cb : val → M unit) vo meta :
  (∀ item, emits_only P (belongsTo_start self loadQuery vo meta item)) →
  (∀ item q m, emits_only P (belongsTo_finish exec vo item q m)) →
  (∀ err, emits_only P (cb err)) →
  ∀ n schedule its running called,
    emits_only P (each self loadQuery exec n vo meta schedule its running called cb).
Proof.
  intros Hstart Hfinish Hcb n.
  induction n as [|n IH]; intros schedule its running called; [emits|].
  cbn [each]. destruct its as [|item its].
  - destruct (running !! _) as [[[item q] m]|]; [|emits].
    apply emits_only_bind; [done|]. intros err. emits; done.
  - destruct (bool_decide (hd 0 schedule = 0) || bool_decide (running = [])).
    + apply emits_only_bind; [done|]. intros s. emits; done.
    + destruct (running !! _) as [[[item' q] m]|]; [|emits].
      apply emits_only_bind; [done|]. intros err. emits; done.
Qed.

(** [async.each]: either every query that runs or is started calls
    back without an error and the callback is then called with
    [null], or the trace holds nothing but the queries and, at most
    once, the report of an error. *)
Lemma each_shape (cb : val → M unit) vo meta :
  (∀ err h, truthy err = true → trace (cb err) h = [Callback err Undef]) →
  ∀ n schedule its running called h,
    2 * length its + length running ≤ n →
    (called = false ∧
     ∃ body h1,
       trace (each self loadQuery exec n vo meta schedule its running called cb) h =
         body ++ trace (cb Null) h1 ∧
       Forall (λ e, is_resolution e = true) body ∧
       no_failure body ∧
       finished body ≡ₚ items running ++ dispatched body) ∨
    Forall (λ e, is_resolution e || is_completion e = true)
      (trace (each self loadQuery exec n vo meta schedule its running called cb) h).
Proof.
  intros Hcb n. induction n as [|n IH]; intros schedule its running called h Hn.
  { right. apply Forall_nil_2. }
  (* a query calls back *)
  assert (∀ k,
    let i := k `mod` length running in
    let m :=
      match running !! i with
      | None => mret ()
      | Some (item, q, meta') =>
          err ← belongsTo_finish exec vo item q meta';
          if truthy err then
            (if called then mret () else cb err);;
            each self loadQuery exec n vo meta (tl schedule) its
              (delete i running) true cb
          else if bool_decide (its = []) && bool_decide (delete i running = [])
               then if called then mret () else cb Null
               else each self loadQuery exec n vo meta (tl schedule) its
                      (delete i running) called cb
      end in
    (called = false ∧
     ∃ body h1,
       trace m h = body ++ trace (cb Null) h1 ∧
       Forall (λ e, is_resolution e = true) body ∧ no_failure body ∧
       finished body ≡ₚ items running ++ dispatched body) ∨
    Forall (λ e, is_resolution e || is_completion e = true) (trace m h))
    as Hfinish.
  { intros k i m. subst m.
    destruct (running !! i) as [[[item q] m]|] eqn:Hx;
      [|right; apply Forall_nil_2].
    assert (length (delete i running) + 1 = length running) as Hlen.
    { apply lookup_lt_Some in Hx as Hlt. rewrite length_delete by eauto. lia. }
    pose proof (delete_Permutation running i _ Hx) as Hperm.
    rewrite trace_bind.
    destruct (belongsTo_finish_trace vo item q m h) as (err & val & -> & Hres).
    set (h1 := store_after (belongsTo_finish exec vo item q m) h).
    destruct (result (belongsTo_finish exec vo item q m) h) as [x|e].
    { (* the callback throws *)
      right. by apply Forall_singleton. }
    destruct Hres as [Htr Herr]. destruct (truthy e) eqn:He.
    - (* with an error *)
      right. rewrite trace_bind.
      apply Forall_cons. split; [done|]. apply Forall_app. split.
      + destruct called; [apply Forall_nil_2|].
        rewrite Hcb by done. by apply Forall_singleton.
      + destruct (result _ h1); [apply Forall_nil_2|].
        destruct (IH (tl schedule) its (delete i running) true
                    (store_after (if called then (mret () : M ()) else cb e) h1))
          as [(? & _)|H]; [lia|done|done].
    - destruct (bool_decide (its = []) && bool_decide (delete i running = []))
        eqn:Hlast.
      + (* the last one, without an error *)
        apply andb_true_iff in Hlast
          as [_ Hnone%bool_decide_eq_true].
        destruct called; [right; by apply Forall_singleton|].
        left. split; [done|].
        exists [Completed item err val], h1. split; [done|].
        split; [by apply Forall_singleton|]. split.
        * apply Forall_singleton. congruence.
        * unfold items. rewrite (Permutation_map _ Hperm), Hnone. done.
      + (* without an error, others to come *)
        destruct (IH (tl schedule) its (delete i running) called h1)
          as [(-> & body & h2 & Ht & Hbody & Hok & Hfin)|H]; [lia| |].
        * left. split; [done|].
          exists (Completed item err val :: body), h2.
          rewrite Ht. split; [done|].
          split; [by apply Forall_cons|]. split.
          -- apply Forall_cons. split; [congruence|done].
          -- simpl. unfold items in *.
             rewrite Hfin, (Permutation_map _ Hperm). done.
        * right. by apply Forall_cons. }
  cbn [each]. destruct its as [|item its]; [apply Hfinish|].
  destruct (bool_decide (hd 0 schedule = 0) || bool_decide (running = []));
    [|apply Hfinish].
  (* the loop starts an iterator *)
  rewrite trace_bind.
  pose proof (belongsTo_start_trace vo meta item h) as Hstart.
  set (h1 := store_after (belongsTo_start self loadQuery vo meta item) h) in *.
  destruct (result (belongsTo_start self loadQuery vo meta item) h) as [x|s].
  { (* which throws *)
    right. rewrite Hstart. apply Forall_nil_2. }
  destruct Hstart as [-> _]. destruct s as [|q m].
  - (* which calls [next] itself *)
    cbn [app].
    destruct (bool_decide (its = []) && bool_decide (running = [])) eqn:Hover.
    + destruct called; [right; apply Forall_nil_2|].
      apply andb_true_iff in Hover as [_ ->%bool_decide_eq_true].
      left. split; [done|]. exists [], h1. repeat split; try done; by constructor.
    + apply IH. simpl in Hn. lia.
  - (* which leaves a query running *)
    destruct (bool_decide (its = []) &&
              bool_decide (running ++ [(item, q, m)] = [])) eqn:Hover.
    { apply andb_true_iff in Hover as [_ Hnone%bool_decide_eq_true].
      by destruct running. }
    destruct (IH (tl schedule) its (running ++ [(item, q, m)]) called h1)
      as [(-> & body & h2 & -> & Hbody & Hok & Hfin)|H].
    + rewrite length_app. simpl in *. lia.
    + left. split; [done|]. exists (Exec item q m :: body), h2.
      split; [done|]. split; [by apply Forall_cons|].
      split; [by apply Forall_cons|].
      simpl. rewrite Hfin. unfold items. rewrite map_app. simpl.
      by rewrite <-app_assoc.
    + right. by apply Forall_cons.
Qed.

#[local] Abbreviation before_write vo meta :=
  (λ err : val,
     if truthy err then deliver err Undef
     else createValues self afterCreate newDate serialize cleanValues
            unserialize adapter_create newModel toObject nested_create vo meta).

#[local] Abbreviation before_hooks vo meta :=
  (λ err : val,
     if truthy err then deliver err Undef
     else beforeCallbacks validate beforeCreate vo (before_write vo meta)).

Lemma beforeCallbacks_shape vo meta h :
  hooks_shape (trace (beforeCallbacks validate beforeCreate vo
                        (before_write vo meta)) h).
Proof.
  unfold beforeCallbacks.
  rewrite trace_bind, trace_call, result_call, store_after_call.
  set (e := (validate (values vo) h).2). set (h1 := (validate (values vo) h).1).
  exists (values vo), e. eexists. split; [done|].
  destruct (truthy e) eqn:He; [done|].
  rewrite trace_bind, trace_call, result_call, store_after_call.
  set (e' := (beforeCreate (values vo) h1).2).
  set (h2 := (beforeCreate (values vo) h1).1).
  exists e'. eexists. split; [done|].
  destruct (truthy e') eqn:He'; [done|].
  simpl. apply createValues_emits.
Qed.

Lemma setup_quiet t :
  Forall (λ e, is_setup e = true) t →
  finished t = [] ∧ dispatched t = [] ∧ no_failure t ∧ Forall without_meta t.
Proof.
  induction 1 as [|e t He Ht (Hf & Hd & Hn & Hm)];
    [repeat split; try done; by constructor|].
  destruct e; try done; simpl; repeat split; try done;
    by apply Forall_cons.
Qed.

Lemma resolution_no_setup t :
  Forall (λ e, is_resolution e = true) t →
  Forall (λ e, is_setup e || is_resolution e || is_completion e = true) t.
Proof.
  intros H. eapply Forall_impl; [exact H|]. intros e ->. by rewrite orb_true_r.
Qed.

(** The trace of a single record: what comes before the hooks, and the
    hooks with what follows them.  The hooks start only when every
    query that was started has called back, none with an error. *)
Lemma create_one_shape v meta schedule h :
  ∃ pre post,
    trace (create_one' v meta schedule) h = pre ++ post ∧
    Forall (λ e, is_setup e || is_resolution e || is_completion e = true) pre ∧
    (post = [] ∨
     hooks_shape post ∧ no_failure pre ∧ finished pre ≡ₚ dispatched pre).
Proof.
  unfold create_one. rewrite trace_bind.
  set (setup := trace _ h).
  assert (Forall (λ e, is_setup e = true) setup) as Hsetup
    by apply processValues_emits.
  destruct (setup_quiet _ Hsetup) as (Hsf & Hsd & Hsn & Hsm).
  assert (Forall (λ e, is_setup e || is_resolution e || is_completion e = true)
            setup) as Hpre.
  { eapply Forall_impl; [exact Hsetup|]. by intros e ->. }
  set (h1 := store_after _ h).
  destruct (result _ h) as [x|vo].
  { (* the defaults throw *)
    exists setup, []. split; [done|]. split; [done|]. by left. }
  unfold createBelongsTo. case_bool_decide as Hnone.
  - (* no payload: the hooks start at once *)
    exists setup, (trace (before_hooks vo meta Null) h1).
    split; [done|]. split; [done|]. right.
    split; [apply beforeCallbacks_shape|]. split; [done|]. by rewrite Hsf, Hsd.
  - destruct (each_shape (before_hooks vo meta) vo Undef) with
      (n := 2 * length (keys (models (assoc vo)))) (schedule := schedule)
      (its := keys (models (assoc vo))) (running := @nil (string * query * option val))
      (called := false) (h := h1)
      as [(_ & body & h2 & -> & Hbody & Hok & Hfin)|Hquiet].
    + intros err h' He. by rewrite He.
    + simpl. lia.
    + (* every query succeeded *)
      exists (setup ++ body), (trace (before_hooks vo meta Null) h2).
      rewrite <-app_assoc. split; [done|]. split.
      { apply Forall_app. split; [done|]. by apply resolution_no_setup. }
      right. split; [apply beforeCallbacks_shape|].
      split; [by apply Forall_app|].
      by rewrite finished_app, dispatched_app, Hsf, Hsd, Hfin.
    + (* a query failed *)
      eexists (setup ++ _), []. rewrite app_nil_r.
      split; [done|]. split; [|by left].
      apply Forall_app. split; [done|].
      eapply Forall_impl; [exact Hquiet|]. intros e He.
      by destruct (is_setup e).
Qed.

Lemma belongsTo_start_without_meta vo item :
  emits_only without_meta (belongsTo_start self loadQuery vo Undef item).
Proof. unfold belongsTo_start. emits. Qed.

Lemma belongsTo_finish_emits vo item q m :
  emits_only without_meta (belongsTo_finish exec vo item q m).
Proof. unfold belongsTo_finish. emits. Qed.

Lemma before_write_without_meta vo meta err :
  emits_only without_meta (before_write vo meta err).
Proof.
  apply emits_only_if; [by apply emits_only_emit|].
  intros h. eapply Forall_impl; [apply createValues_emits|]. by intros [].
Qed.

Lemma before_hooks_without_meta vo meta err :
  emits_only without_meta (before_hooks vo meta err).
Proof.
  apply emits_only_if; [by apply emits_only_emit|].
  unfold beforeCallbacks.
  apply emits_only_bind; [by apply emits_only_call|]. intros e.
  apply emits_only_if; [apply before_write_without_meta|].
  apply emits_only_bind; [by apply emits_only_call|]. intros e'.
  apply emits_only_if; apply before_write_without_meta.
Qed.

(** No query is started with a context. *)
Lemma create_one_without_meta v meta schedule :
  emits_only without_meta (create_one' v meta schedule).
Proof.
  unfold create_one. apply emits_only_bind.
  { intros h. eapply Forall_impl; [apply processValues_emits|]. by intros []. }
  intros vo. unfold createBelongsTo.
  apply emits_only_if; [apply before_hooks_without_meta|].
  apply each_emits; [apply belongsTo_start_without_meta
                    |apply belongsTo_finish_emits
                    |apply before_hooks_without_meta].
Qed.

(** The three ways of [create]: a handle, a batch, a single record. *)
Lemma create_cases a0 a1 a2 schedule h :
  (trace (create' a0 a1 a2 schedule) h = [] ∧
   ∃ v, result (create' a0 a1 a2 schedule) h = Deferred v) ∨
  (∃ v cb r, trace (create' a0 a1 a2 schedule) h = [CreateEach v cb a2 r] ∧
             result (create' a0 a1 a2 schedule) h = Delegated r) ∨
  (∃ v, trace (create' a0 a1 a2 schedule) h = trace (create_one' v a2 schedule) h ∧
        result (create' a0 a1 a2 schedule) h =
        match result (create_one' v a2 schedule) h with
        | inl e => Threw e
        | inr _ => Started
        end).
Proof.
  unfold trace, result, create, outcome, mbind, M_bind, reads, on_store, call,
    mret, M_ret, id.
  destruct (if isPlainObject h a0 && _ then _ else _) as [values cb].
  destruct (isArray h values) eqn:Harr.
  - (* an array: filtered, then handed over *)
    unfold filter_undefined, alloc.
    destruct cb; try (left; split; [done|by eexists]). right. left.
    set (h' := h ++ _).
    replace (isArray h' (Ref (length h))) with true.
    2:{ unfold isArray, has_kind, deref. subst h'.
        by rewrite lookup_app_r, Nat.sub_diag. }
    destruct (createEach _ _ _ _) as [h'' r]. by eexists _, _, _.
  - destruct cb; try (left; split; [done|by eexists]). right. right.
    exists values. rewrite Harr.
    destruct (create_one' values a2 schedule h) as [[h' t] [e|u]]; simpl; [done|].
    by rewrite app_nil_r.
Qed.

Lemma persist_quiet t :
  Forall (λ x, is_persist x = true) t →
  Forall (λ x, is_resolution x = false) t ∧ Forall (λ x, is_hook x = false) t.
Proof.
  intros H. split; (eapply Forall_impl; [exact H|]); by intros [].
Qed.

Lemma hooks_shape_quiet post :
  hooks_shape post → Forall (λ e, is_resolution e = false) post.
Proof.
  intros (values & e & tail & -> & Htail). apply Forall_cons. split; [done|].
  destruct (truthy e); [subst; by apply Forall_singleton|].
  destruct Htail as (e' & tail' & -> & Htail'). apply Forall_cons. split; [done|].
  destruct (truthy e'); [subst; by apply Forall_singleton|].
  by apply persist_quiet.
Qed.

(** The trace of any call of [create]. *)
Lemma create_shape a0 a1 a2 schedule h :
  ∃ pre post,
    trace (create' a0 a1 a2 schedule) h = pre ++ post ∧
    Forall (λ e, is_hook e = false ∧ is_write e = false) pre ∧
    Forall (λ e, is_resolution e = false) post ∧
    (post = [] ∨
     hooks_shape post ∧ no_failure pre ∧ finished pre ≡ₚ dispatched pre).
Proof.
  destruct (create_cases a0 a1 a2 schedule h)
    as [[-> _]|[(v & cb & r & -> & _)|(v & -> & _)]].
  - exists [], []. repeat split; try done; try (by constructor); by left.
  - exists [CreateEach v cb a2 r], []. repeat split; try done;
      try (by constructor); try (by apply Forall_singleton); by left.
  - destruct (create_one_shape v a2 schedule h)
      as (pre & post & -> & Hpre & Hpost).
    exists pre, post. split; [done|]. split.
    { eapply Forall_impl; [exact Hpre|]. by intros []. }
    split; [|done].
    destruct Hpost as [->|[Hshape _]]; [by constructor|].
    by apply hooks_shape_quiet.
Qed.

(** *** The caller hears once *)

Lemma reports_app t t' : reports (t ++ t') = reports t + reports t'.
Proof.
  induction t as [|e t IH]; simpl; [done|]. destruct e; simpl; by rewrite ?IH.
Qed.

Lemma counts_ret {A} (a : A) : counts 0 (mret a).
Proof. by intros h. Qed.

Lemma counts_throw {A} k (e : exn) : counts k (@throw A e).
Proof. intros h. cbn. lia. Qed.

Lemma counts_bind {A B} k (m : M A) (f : A → M B) :
  counts 0 m → (∀ a, counts k (f a)) → counts k (m ≫= f).
Proof.
  intros Hm Hf h. rewrite trace_bind, result_bind, reports_app.
  specialize (Hm h). destruct (result m h) as [e|a]; [cbn; lia|].
  specialize (Hf a (store_after m h)).
  destruct (result (f a) (store_after m h)); lia.
Qed.

Lemma counts_reads {A} (f : heap → A) : counts 0 (reads f).
Proof. by intros h. Qed.

Lemma counts_writes (f : heap → heap) : counts 0 (writes f).
Proof. by intros h. Qed.

Lemma counts_read v k : counts 0 (read v k).
Proof. intros h. unfold read. destruct (nothing v); [cbn; lia|done]. Qed.

Lemma counts_write v k x : counts 0 (write v k x).
Proof. intros h. unfold write. destruct (nothing v); [cbn; lia|done]. Qed.

Lemma counts_call {A} (f : heap → heap * A) e :
  (∀ a, reports [e a] = 0) → counts 0 (call f e).
Proof. intros He h. rewrite result_call, trace_call. apply He. Qed.

Lemma counts_deliver err r : counts 1 (deliver err r).
Proof. by intros h. Qed.

Lemma counts_if {A} k (b : bool) (m1 m2 : M A) :
  counts k m1 → counts k m2 → counts k (if b then m1 else m2).
Proof. by destruct b. Qed.

Ltac counts :=
  repeat first
    [ apply counts_ret | apply counts_reads | apply counts_writes
    | apply counts_read | apply counts_write | apply counts_throw
    | apply counts_deliver
    | apply counts_call; intros; done
    | apply counts_bind; [|intros ?]
    | apply counts_if
    | progress case_match ].

(** Whatever the adapter and the after-create hook answer,
    [createValues] reports once, unless it throws. *)
Lemma createValues_counts vo meta :
  counts 1
    (createValues self afterCreate newDate serialize cleanValues unserialize
       adapter_create newModel toObject nested_create vo meta).
Proof. unfold createValues, stamp, after. counts. Qed.

Lemma before_hooks_counts vo meta err : counts 1 (before_hooks vo meta err).
Proof.
  apply counts_if; [apply counts_deliver|]. unfold beforeCallbacks.
  apply counts_bind; [by apply counts_call|]. intros e.
  apply counts_if; [apply counts_if; [apply counts_deliver|apply createValues_counts]|].
  apply counts_bind; [by apply counts_call|]. intros e'.
  apply counts_if; (apply counts_if; [apply counts_deliver|apply createValues_counts]).
Qed.

Lemma quiet_resolution t :
  Forall (λ e, is_resolution e = false) t → finished t = [] ∧ dispatched t = [].
Proof.
  induction 1 as [|e t He _ [Hf Hd]]; [done|]. by destruct e.
Qed.

(** [async.each] runs to its end within the steps it is given, unless
    a callback throws: every query that runs or is started calls back,
    and the callback is called once, unless it was called before. *)
Lemma each_completes (cb : val → M unit) vo meta :
  (∀ err, counts 1 (cb err)) →
  (∀ err, emits_only (λ e, is_resolution e = false) (cb err)) →
  ∀ n schedule its running called h,
    2 * length its + length running ≤ n →
    its ≠ [] ∨ running ≠ [] ∨ called = true →
    result (each self loadQuery exec n vo meta schedule its running called cb) h
      = inr () →
    let t := trace (each self loadQuery exec n vo meta schedule its running
                      called cb) h in
    reports t = (if called then 0 else 1) ∧
    finished t ≡ₚ items running ++ dispatched t.
Proof.
  intros Hcount Hquiet n.
  induction n as [|n IH];
    intros schedule its running called h Hn Hlive Hres t; subst t.
  { destruct its, running; simpl in Hn; try lia.
    destruct Hlive as [?|[?|Hc]]; [done|done|]. by rewrite Hc. }
  assert (∀ (c : bool) err h',
    let m := if c then (mret () : M ()) else cb err in
    finished (trace m h') = [] ∧ dispatched (trace m h') = [] ∧
    (result m h' = inr () → reports (trace m h') = (if c then 0 else 1))) as Hcb.
  { intros [] err h'; simpl; [done|].
    destruct (quiet_resolution _ (Hquiet err h')) as [-> ->].
    split; [done|]. split; [done|]. intros Hr. specialize (Hcount err h').
    by rewrite Hr in Hcount. }
  (* a query calls back *)
  assert (∀ k, running ≠ [] ∨ called = true →
    let i := k `mod` length running in
    let m :=
      match running !! i with
      | None => mret ()
      | Some (item, q, meta') =>
          err ← belongsTo_finish exec vo item q meta';
          if truthy err then
            (if called then mret () else cb err);;
            each self loadQuery exec n vo meta (tl schedule) its
              (delete i running) true cb
          else if bool_decide (its = []) && bool_decide (delete i running = [])
               then if called then mret () else cb Null
               else each self loadQuery exec n vo meta (tl schedule) its
                      (delete i running) called cb
      end in
    result m h = inr () →
    reports (trace m h) = (if called then 0 else 1) ∧
    finished (trace m h) ≡ₚ items running ++ dispatched (trace m h))
    as Hfinish.
  { intros k Hr i m. subst m.
    destruct (running !! i) as [[[item q] m]|] eqn:Hx.
    2:{ intros _. destruct running as [|x running].
        - destruct Hr as [?|Hc]; [done|]. by rewrite Hc.
        - apply lookup_ge_None in Hx.
          pose proof (Nat.mod_upper_bound k (length (x :: running))) as Hlt.
          subst i. simpl in *. lia. }
    assert (length (delete i running) + 1 = length running) as Hlen.
    { apply lookup_lt_Some in Hx as Hlt. rewrite length_delete by eauto. lia. }
    pose proof (delete_Permutation running i _ Hx) as Hperm.
    rewrite trace_bind, result_bind.
    destruct (belongsTo_finish_trace vo item q m h) as (err & val & -> & Hfin).
    set (h1 := store_after (belongsTo_finish exec vo item q m) h).
    destruct (result (belongsTo_finish exec vo item q m) h) as [x|e]; [done|].
    cbn [app reports finished dispatched].
    destruct (truthy e) eqn:He.
    - (* with an error *)
      rewrite trace_bind, result_bind, reports_app, finished_app, dispatched_app.
      destruct (Hcb called e h1) as (-> & -> & Hrep).
      destruct (result _ h1) as [x|[]] eqn:Hr1; [done|].
      intros Hres'. rewrite Hrep by done. set (h2 := store_after _ h1) in *.
      destruct (IH (tl schedule) its (delete i running) true h2)
        as [-> Hfin']; [lia|by right; right|done|].
      split; [by destruct called|].
      cbn [app]. rewrite Hfin'. unfold items.
      by rewrite (Permutation_map _ Hperm).
    - destruct (bool_decide (its = []) && bool_decide (delete i running = []))
        eqn:Hlast.
      + (* the last one, without an error *)
        apply andb_true_iff in Hlast as [_ Hnone%bool_decide_eq_true].
        destruct (Hcb called Null h1) as (-> & -> & Hrep). intros Hres'.
        rewrite Hrep by done. split; [done|].
        unfold items. rewrite (Permutation_map _ Hperm), Hnone. done.
      + (* without an error, others to come *)
        intros Hres'.
        destruct (IH (tl schedule) its (delete i running) called h1)
          as [-> Hfin']; [lia| |done|].
        { apply andb_false_iff in Hlast
            as [H%bool_decide_eq_false|H%bool_decide_eq_false]; auto. }
        split; [done|]. rewrite Hfin'. unfold items.
        by rewrite (Permutation_map _ Hperm). }
  cbn [each] in Hres |- *. destruct its as [|item its].
  { apply Hfinish; [|done]. destruct Hlive as [?|[?|?]]; [done|by left|by right]. }
  destruct (bool_decide (hd 0 schedule = 0) || bool_decide (running = []))
    eqn:Hgo.
  2:{ apply Hfinish; [|done]. left.
      by apply orb_false_iff in Hgo as [_ H%bool_decide_eq_false]. }
  (* the loop starts an iterator *)
  revert Hres. rewrite trace_bind, result_bind.
  pose proof (belongsTo_start_trace vo meta item h) as Hstart.
  set (h1 := store_after (belongsTo_start self loadQuery vo meta item) h) in *.
  destruct (result (belongsTo_start self loadQuery vo meta item) h) as [x|s];
    [done|].
  destruct Hstart as [-> _]. destruct s as [|q m].
  - (* which calls [next] itself *)
    cbn [app].
    destruct (bool_decide (its = []) && bool_decide (running = [])) eqn:Hover.
    + apply andb_true_iff in Hover as [_ ->%bool_decide_eq_true].
      destruct (Hcb called Null h1) as (-> & -> & Hrep). intros Hres.
      by rewrite Hrep by done.
    + intros Hres. apply IH; [simpl in Hn; lia| |done].
      apply andb_false_iff in Hover
        as [H%bool_decide_eq_false|H%bool_decide_eq_false]; auto.
  - (* which leaves a query running *)
    destruct (bool_decide (its = []) &&
              bool_decide (running ++ [(item, q, m)] = [])) eqn:Hover.
    { apply andb_true_iff in Hover as [_ Hnone%bool_decide_eq_true].
      by destruct running. }
    intros Hres.
    destruct (IH (tl schedule) its (running ++ [(item, q, m)]) called h1)
      as [Hrep Hfin]; [| |done|].
    + rewrite length_app. simpl in *. lia.
    + right. left. by destruct running.
    + cbn [app reports finished dispatched]. split; [done|].
      rewrite Hfin. unfold items. rewrite map_app. simpl.
      by rewrite <-app_assoc.
Qed.

Lemma before_hooks_quiet vo meta err :
  emits_only (λ e, is_resolution e = false) (before_hooks vo meta err).
Proof.
  apply emits_only_if; [by apply emits_only_emit|].
  intros h. apply hooks_shape_quiet, beforeCallbacks_shape.
Qed.

Lemma setup_no_report t : Forall (λ e, is_setup e = true) t → reports t = 0.
Proof. induction 1 as [|e t He _ IH]; [done|]. by destruct e. Qed.

(** The pipeline of a single record runs to its end, whatever the
    order in which the queries call back, unless it throws: every query
    that was started calls back, and the caller hears exactly once. *)
Lemma create_one_completes v meta schedule h :
  result (create_one' v meta schedule) h = inr () →
  let t := trace (create_one' v meta schedule) h in
  reports t = 1 ∧ finished t ≡ₚ dispatched t.
Proof.
  unfold create_one. rewrite trace_bind, result_bind.
  set (setup := trace _ h).
  assert (Forall (λ e, is_setup e = true) setup) as Hsetup
    by apply processValues_emits.
  destruct (setup_quiet _ Hsetup) as (Hsf & Hsd & _ & _).
  set (h1 := store_after _ h). destruct (result _ h) as [x|vo]; [done|].
  intros Hres. cbv zeta.
  rewrite reports_app, finished_app, dispatched_app, Hsf, Hsd,
    (setup_no_report _ Hsetup).
  cbn [app Nat.add]. revert Hres. unfold createBelongsTo.
  case_bool_decide as Hnone; intros Hres.
  - pose proof (before_hooks_counts vo meta Null h1) as Hc.
    cbv beta in Hc, Hres. rewrite Hres in Hc. split; [done|].
    by destruct (quiet_resolution _ (before_hooks_quiet vo meta Null h1))
      as [-> ->].
  - apply (each_completes (before_hooks vo meta) vo Undef
             (before_hooks_counts vo meta) (before_hooks_quiet vo meta)
             _ schedule _ [] false h1); [simpl; lia|by left|done].
Qed.

(** A call of [create] that starts the pipeline and does not throw
    hears back exactly once, each query that was started having called
    back. *)
Lemma create_completes a0 a1 a2 schedule h :
  result (create' a0 a1 a2 schedule) h = Started →
  let t := trace (create' a0 a1 a2 schedule) h in
  reports t = 1 ∧ finished t ≡ₚ dispatched t.
Proof.
  destruct (create_cases a0 a1 a2 schedule h)
    as [[_ [v ->]]|[(v & cb & r & _ & ->)|(v & -> & ->)]]; [done|done|].
  destruct (result (create_one' v a2 schedule) h) as [x|[]] eqn:Hr; [done|].
  intros _. by apply create_one_completes.
Qed.

(** C2.  The trace of a call of [create] splits in two.  The first part
    holds no hook and no write.  The second holds no event of a
    belongsTo query; when it is not empty, every query that was started
    has called back in the first part, none with an error, and the
    second part opens with validation.  After a validation that fails
    comes the report of its error to the caller and nothing else;
    after one that passes comes the before-create hook, and after a
    before-create hook that fails, again, the report of its error and
    nothing else: the adapter's [create] is in neither. *)
Theorem hooks_run_in_order_before_the_write a0 a1 a2 schedule h :
  ∃ pre post,
    trace (create' a0 a1 a2 schedule) h = pre ++ post ∧
    Forall (λ e, is_hook e = false ∧ is_write e = false) pre ∧
    Forall (λ e, is_resolution e = false) post ∧
    (post = [] ∨
     no_failure pre ∧ finished pre ≡ₚ dispatched pre ∧
     ∃ values e tail,
       post = Validate values e :: tail ∧
       if truthy e then tail = [Callback e Undef]
       else ∃ e' tail',
              tail = BeforeCreate values e' :: tail' ∧
              Forall (λ x, is_hook x = false) tail' ∧
              (truthy e' = true → tail' = [Callback e' Undef])).
Proof.
  destruct (create_shape a0 a1 a2 schedule h)
    as (pre & post & Ht & Hpre & Hpost & Hcases).
  exists pre, post. split; [done|]. split; [done|]. split; [done|].
  destruct Hcases as [->|(Hshape & Hok & Hall)]; [by left|]. right.
  split; [done|]. split; [done|].
  destruct Hshape as (values & e & tail & -> & Htail).
  exists values, e, tail. split; [done|].
  destruct (truthy e); [done|].
  destruct Htail as (e' & tail' & -> & Htail'). exists e', tail'.
  split; [done|]. destruct (truthy e').
  - subst. split; [by apply Forall_singleton|done].
  - split; [by apply persist_quiet|done].
Qed.

(** C4 fails on the code.  Whatever context a call of [create] is
    given, every belongsTo query it starts is started without one:
    [createBelongsTo] is called with two arguments, so the context it
    would forward is [undefined]. *)
Theorem belongsTo_queries_get_no_context a0 a1 a2 schedule h :
  Forall without_meta (trace (create' a0 a1 a2 schedule) h).
Proof.
  destruct (create_cases a0 a1 a2 schedule h)
    as [[-> _]|[(v & cb & r & -> & _)|(v & -> & _)]].
  - apply Forall_nil_2.
  - by apply Forall_singleton.
  - apply create_one_without_meta.
Qed.

(** *** The payloads are resolved *)

Section Resolution.
Variable cb : val → M unit.
Variable vo : valuesObject.
Variable lv : nat.
Variable h1 : heap.
Hypothesis Hvalues : values vo = Ref lv.
Hypothesis Hlv : lv < length h1.
Hypothesis Hpayloads :
  ∀ item lp, (item, Ref lp) ∈ models (assoc vo) → lp < length h1 ∧ lp ≠ lv.
Hypothesis Hexec : queries_allocate exec.
Hypothesis Hcb :
  ∀ err h, truthy err = true → cb err h = (h, [Callback err Undef], inr ()).

#[local] Abbreviation tgt := (target_of self loadQuery).
#[local] Abbreviation resolved := (resolution self loadQuery cb vo lv h1).

Lemma lookup_key_elem_of {A} (o : list (string * A)) k v :
  lookup_key k o = Some v → (k, v) ∈ o.
Proof.
  induction o as [|[k' v'] o IH]; simpl; [done|].
  destruct (String.eqb k k') eqn:E.
  - apply String.eqb_eq in E as ->. intros [= ->]. apply list_elem_of_here.
  - intros H. apply list_elem_of_further. by apply IH.
Qed.

(** A payload is on every later store what it is on [h1]. *)
Lemma payload_stable item h :
  persist lv h1 h →
  let payload := default Undef (lookup_key item (models (assoc vo))) in
  isPlainObject h payload = isPlainObject h1 payload ∧
  ∀ k, get h payload k = get h1 payload k.
Proof.
  intros Hp payload. subst payload.
  destruct (lookup_key item (models (assoc vo))) as [payload|] eqn:Hitem;
    [|done].
  apply lookup_key_elem_of in Hitem. destruct payload as [| | | | | |lp]; try done.
  destruct (Hpayloads item lp Hitem) as [Hlt Hne]. simpl. split.
  - by apply (persist_plain lv).
  - intros k. by apply (persist_get lv).
Qed.

(** An iterator on a store later than [h1]. *)
Lemma belongsTo_start_run meta item h :
  persist lv h1 h →
  match result (belongsTo_start self loadQuery vo meta item) h with
  | inl _ => True
  | inr Next =>
      resolvable self h1 vo item = false ∧
      store_after (belongsTo_start self loadQuery vo meta item) h = h ∧
      trace (belongsTo_start self loadQuery vo meta item) h = []
  | inr (Pending q m) =>
      resolvable self h1 vo item = true ∧
      target q = tgt item ∧
      issued self loadQuery h1 vo (Exec item q m) ∧
      (∃ crit,
         store_after (belongsTo_start self loadQuery vo meta item) h = h ++ [crit] ∧
         ∀ hv, persist lv (h ++ [crit]) hv → by_primary_key h1 hv q) ∧
      trace (belongsTo_start self loadQuery vo meta item) h = [Exec item q m]
  end.
Proof.
  intros Hp. destruct (payload_stable item h Hp) as [Hplain Hget].
  unfold belongsTo_start, resolvable, target_of, association_of.
  set (payload := default Undef (lookup_key item (models (assoc vo)))) in *.
  cbv zeta in Hplain, Hget.
  unfold trace, result, store_after, mbind, M_bind, reads, on_store, emit,
    mret, M_ret, throw, id.
  cbv beta iota. rewrite Hplain.
  destruct (isPlainObject h1 payload) eqn:Hpl; cbn [negb andb]; [|done].
  destruct (lookup_key _ (schema self)) as [attribute|] eqn:Hschema;
    cbn [default]; [|done].
  destruct (truthy (modelName_of attribute)) eqn:Hm; cbn [negb];
    cbv beta iota; cbn [fst snd alloc]; [|done].
  rewrite Hget. set (model := loadQuery (modelName_of attribute)).
  set (pkv := get h1 payload (primaryKey model)).
  split; [done|]. split; [unfold query_for; by destruct (truthy pkv)|]. split.
  - unfold issued, target_of, association_of. rewrite Hschema.
    exists payload, (Ref (length h)). split; [|reflexivity].
    subst payload. destruct (lookup_key item (models (assoc vo))); [done|].
    by cbn in Hpl.
  - split; [|done]. eexists. split; [done|]. intros hv [_ Hobj].
    unfold query_for. destruct (truthy pkv); [|done]. cbn.
    apply Hobj.
    + destruct Hp as [Hlen _]. lia.
    + by rewrite lookup_app_r, Nat.sub_diag.
Qed.

Lemma items_delete (running : list (string * query * option val)) i item q m :
  running !! i = Some (item, q, m) →
  items running ≡ₚ item :: items (delete i running).
Proof.
  intros Hx. unfold items.
  by rewrite (Permutation_map _ (delete_Permutation running i _ Hx)).
Qed.

Lemma lv_in_store h : persist lv h1 h → lv < length h.
Proof. intros [Hlen _]. lia. Qed.

(** Nothing is left to do. *)
Lemma resolved_end h called :
  resolved h [] [] called
    (trace (if called then (mret () : M ()) else cb Null) h).
Proof.
  exists [], (trace (if called then (mret () : M ()) else cb Null) h), h.
  split; [done|]. split; [done|]. split; [done|]. split; [done|].
  split; [done|]. split; [apply persist_refl|]. split; [done|].
  split; [by intros ??? ?%elem_of_nil|]. split; [by intros ??? ?%elem_of_nil|].
  destruct called; [left; by split; [|left]|right]. repeat split; try done.
  apply Forall_nil_2.
Qed.

(** A payload that gets no query. *)
Lemma resolved_skip item its running called h t :
  resolvable self h1 vo item = false →
  resolved h its running called t → resolved h (item :: its) running called t.
Proof.
  intros Hno (body & tail & hv & -> & Hbody & Hdisp & Hiss & Hfin & Hp & Hframe
              & Hdone & Hcrit & Htail).
  exists body, tail, hv. split; [done|]. split; [done|].
  split; [cbn [List.filter]; by rewrite Hno|]. split; [done|].
  split; [|done].
  intros x Hx. apply Hfin in Hx. cbn [app]. by apply list_elem_of_further.
Qed.

(** A payload whose query is started. *)
Lemma resolved_exec item q m crit its running called h t :
  persist lv h1 h →
  resolvable self h1 vo item = true →
  issued self loadQuery h1 vo (Exec item q m) →
  (∀ hv, persist lv (h ++ [crit]) hv → by_primary_key h1 hv q) →
  resolved (h ++ [crit]) its (running ++ [(item, q, m)]) called t →
  resolved h (item :: its) running called (Exec item q m :: t).
Proof.
  intros Hh Hyes Hq Hby (body & tail & hv & -> & Hbody & Hdisp & Hiss & Hfin
                         & Hp & Hframe & Hdone & Hcrit & Htail).
  pose proof (lv_in_store h Hh) as Hlt.
  exists (Exec item q m :: body), tail, hv. split; [done|].
  split; [by apply Forall_cons|].
  split; [cbn [dispatched List.filter]; rewrite Hyes; by f_equal|].
  split; [by apply Forall_cons|]. split.
  { intros x Hx. cbn [finished] in Hx. apply Hfin in Hx.
    unfold items in Hx. rewrite map_app in Hx. cbn in Hx.
    rewrite !elem_of_app, list_elem_of_singleton in Hx.
    cbn [app]. rewrite elem_of_cons, elem_of_app. unfold items. tauto. }
  split; [eapply persist_trans; [apply persist_app|done]|]. split.
  { intros k Hk. rewrite Hframe by done. by apply get_app_old. }
  split.
  { intros item' err val [?|Hin]%elem_of_cons; [done|]. by apply Hdone. }
  split.
  { intros item' q' m' [[= -> -> ->]|Hin]%elem_of_cons; [by apply Hby|].
    by eapply Hcrit. }
  destruct Htail as [(-> & Hwhy)|(-> & -> & Hok & Hperm)].
  - left. split; [done|]. destruct Hwhy as [?|Hwhy]; [by left|right].
    intros Hok. apply Hwhy. by apply Forall_cons in Hok as [_ ?].
  - right. split; [done|]. split; [done|]. split; [by apply Forall_cons|].
    cbn [finished dispatched]. rewrite Hperm. unfold items. rewrite map_app.
    cbn. by rewrite <-app_assoc.
Qed.

(** A query that fails. *)
Lemma resolved_failed i item q m err val new its running called h t :
  persist lv h1 h →
  running !! i = Some (item, q, m) →
  truthy err = true →
  resolved (h ++ new) its (delete i running) true t →
  resolved h its running called
    (Completed item err val :: (if called then [] else [Callback err Undef]) ++ t).
Proof.
  intros Hh Hx Herr (body & tail & hv & -> & Hbody & Hdisp & Hiss & Hfin & Hp
                     & Hframe & Hdone & Hcrit & Htail).
  pose proof (lv_in_store h Hh) as Hlt.
  pose proof (items_delete running i item q m Hx) as Hperm.
  destruct Htail as [(-> & _)|(_ & ? & _)]; [|done].
  set (report := if called then [] else [Callback err Undef]).
  assert (Forall (λ e, is_resolution e || is_completion e = true) report
          ∧ dispatched report = [] ∧ finished report = []
          ∧ Forall (issued self loadQuery h1 vo) report
          ∧ ∀ e, e ∈ report → e = Callback err Undef)
    as (Hr1 & Hr2 & Hr3 & Hr4 & Hr5).
  { subst report. destruct called.
    - repeat split; try done. by intros e ?%elem_of_nil.
    - repeat split; try done; try (by apply Forall_singleton).
      by intros e ->%list_elem_of_singleton. }
  exists (Completed item err val :: report ++ body), [], hv.
  split; [by rewrite !app_nil_r|].
  split; [apply Forall_cons; split; [done|]; by apply Forall_app|].
  split; [cbn [dispatched]; by rewrite dispatched_app, Hr2|].
  split; [apply Forall_cons; split; [done|]; by apply Forall_app|]. split.
  { intros x Hin. cbn [finished] in Hin. rewrite finished_app, Hr3 in Hin.
    apply elem_of_app. rewrite Hperm.
    apply elem_of_cons in Hin as [->|Hin]; [right; apply list_elem_of_here|].
    apply Hfin, elem_of_app in Hin as [?|?]; [by left|right].
    by apply list_elem_of_further. }
  split; [eapply persist_trans; [apply persist_app|done]|]. split.
  { intros k Hk. cbn [finished] in Hk. rewrite finished_app, Hr3 in Hk.
    apply not_elem_of_cons in Hk as [_ Hk].
    rewrite Hframe by done. by apply get_app_old. }
  split.
  { intros item' err' val' [[= -> -> ->]|Hin]%elem_of_cons; [congruence|].
    apply elem_of_app in Hin as [Hin%Hr5|Hin]; [done|]. by apply Hdone. }
  split.
  { intros item' q' m' [?|Hin]%elem_of_cons; [done|].
    apply elem_of_app in Hin as [Hin%Hr5|Hin]; [done|]. by eapply Hcrit. }
  left. split; [done|]. right. intros Hok.
  apply Forall_cons in Hok as [Hok _]. cbn in Hok. congruence.
Qed.

(** A query that calls back without an error. *)
Lemma resolved_completed i item q m err lval new its running called h t :
  persist lv h1 h →
  NoDup (its ++ items running) →
  running !! i = Some (item, q, m) →
  truthy err = false →
  length h ≤ lval < length (h ++ new) →
  resolved (set (h ++ new) (Ref lv) item
              (get (h ++ new) (Ref lval) (primaryKey (tgt item))))
    its (delete i running) called t →
  resolved h its running called (Completed item err (Ref lval) :: t).
Proof.
  intros Hh Hnd Hx Herr Hlval
    (body & tail & hv & -> & Hbody & Hdisp & Hiss & Hfin & Hp & Hframe & Hdone
     & Hcrit & Htail).
  pose proof (lv_in_store h Hh) as Hlt.
  pose proof (items_delete running i item q m Hx) as Hperm.
  set (h' := h ++ new) in *.
  set (pk := get h' (Ref lval) (primaryKey (tgt item))) in *.
  assert (item ∉ finished body) as Hfresh.
  { intros Hin%Hfin. rewrite Hperm in Hnd.
    apply NoDup_app in Hnd as (_ & Hapart & Hnd').
    apply NoDup_cons in Hnd' as [Hhere _].
    apply elem_of_app in Hin as [Hin|Hin]; [|done].
    apply (Hapart item Hin), list_elem_of_here. }
  assert (is_Some (h' !! lv)) as [ov Hov].
  { apply lookup_lt_is_Some_2. subst h'. rewrite length_app. lia. }
  exists (Completed item err (Ref lval) :: body), tail, hv.
  split; [done|]. split; [by apply Forall_cons|]. split; [done|].
  split; [by apply Forall_cons|]. split.
  { intros x Hin. cbn [finished] in Hin. apply elem_of_app. rewrite Hperm.
    apply elem_of_cons in Hin as [->|Hin]; [right; apply list_elem_of_here|].
    apply Hfin, elem_of_app in Hin as [?|?]; [by left|right].
    by apply list_elem_of_further. }
  split.
  { eapply persist_trans; [apply persist_app|].
    eapply persist_trans; [apply persist_set|exact Hp]. }
  split.
  { intros k Hk. cbn [finished] in Hk. apply not_elem_of_cons in Hk as [Hne Hk].
    rewrite Hframe by done. rewrite get_set_ne by done. by apply get_app_old. }
  split.
  { intros item' err' val' [[= -> -> ->]|Hin]%elem_of_cons; [|by apply Hdone].
    intros _. assert (length (set h' (Ref lv) item pk) = length h') as Hsame.
    { unfold set. by rewrite length_alter. }
    split.
    { exists lval. split; [done|]. split; [lia|]. destruct Hp as [Hlen _]. lia. }
    rewrite Hframe by done. rewrite (get_set _ _ ov) by done.
    rewrite (persist_get lv (set h' (Ref lv) item pk) hv lval); [|done|lia|lia].
    rewrite get_set_other; [done|]. intros [= ->]. lia. }
  split.
  { intros item' q' m' [?|Hin]%elem_of_cons; [done|]. by eapply Hcrit. }
  destruct Htail as [(-> & Hwhy)|(-> & -> & Hok & Hall)].
  - left. split; [done|]. destruct Hwhy as [?|Hwhy]; [by left|right].
    intros Hok. apply Hwhy. by apply Forall_cons in Hok as [_ ?].
  - right. split; [done|]. split; [done|].
    split; [apply Forall_cons; by split|].
    cbn [finished dispatched]. by rewrite Hall, Hperm.
Qed.

(** The callback of a query whose answer is an object it has added. *)
Lemma belongsTo_finish_resolved item q m h :
  ∃ err val new,
    trace (belongsTo_finish exec vo item q m) h = [Completed item err val] ∧
    if truthy err then
      result (belongsTo_finish exec vo item q m) h = inr err ∧
      store_after (belongsTo_finish exec vo item q m) h = h ++ new
    else
      ∃ lval,
        val = Ref lval ∧ length h ≤ lval < length (h ++ new) ∧
        result (belongsTo_finish exec vo item q m) h = inr Undef ∧
        store_after (belongsTo_finish exec vo item q m) h =
          set (h ++ new) (Ref lv) item
            (get (h ++ new) (Ref lval) (primaryKey (target q))).
Proof.
  unfold trace, result, store_after. rewrite belongsTo_finish_run.
  destruct (Hexec q m h) as (new & Hnew & Hval).
  destruct (exec q m h) as [h' [err val]]. cbn [fst snd] in *. subst h'.
  exists err, val, new. destruct (truthy err) eqn:Herr; [done|].
  destruct (Hval eq_refl) as (lval & -> & Hlval). rewrite Hvalues.
  split; [done|]. exists lval. done.
Qed.

(** [async.each] from a store later than [h1]: what it does when it
    does not throw. *)
Lemma each_run meta n :
  ∀ schedule its running called h,
    2 * length its + length running ≤ n →
    its ≠ [] ∨ running ≠ [] ∨ called = true →
    persist lv h1 h →
    NoDup (its ++ items running) →
    (∀ item q m, (item, q, m) ∈ running → target q = tgt item) →
    result (each self loadQuery exec n vo meta schedule its running called cb) h
      = inr () →
    resolved h its running called
      (trace (each self loadQuery exec n vo meta schedule its running called cb) h).
Proof.
  induction n as [|n IH];
    intros schedule its running called h Hn Hlive Hh Hnd Hrun Hres.
  { destruct its, running; simpl in Hn; try lia.
    destruct Hlive as [?|[?|Hc]]; [done|done|]. subst called.
    apply (resolved_end h true). }
  (* what follows a step *)
  assert (∀ its' running' h',
    2 * length its' + length running' ≤ n →
    persist lv h1 h' → NoDup (its' ++ items running') →
    (∀ item q m, (item, q, m) ∈ running' → target q = tgt item) →
    let m := if bool_decide (its' = []) && bool_decide (running' = [])
             then if called then mret () else cb Null
             else each self loadQuery exec n vo meta (tl schedule) its' running'
                    called cb in
    result m h' = inr () → resolved h' its' running' called (trace m h'))
    as Hnext.
  { intros its' running' h' Hn' Hh' Hnd' Hrun' m Hres'. subst m.
    destruct (bool_decide (its' = []) && bool_decide (running' = [])) eqn:Hover.
    - apply andb_true_iff in Hover
        as [->%bool_decide_eq_true ->%bool_decide_eq_true].
      apply resolved_end.
    - apply IH; try done.
      apply andb_false_iff in Hover
        as [H%bool_decide_eq_false|H%bool_decide_eq_false]; auto. }
  (* a query calls back *)
  assert (∀ k, running ≠ [] ∨ its = [] ∧ called = true →
    let i := k `mod` length running in
    let m :=
      match running !! i with
      | None => mret ()
      | Some (item, q, meta') =>
          err ← belongsTo_finish exec vo item q meta';
          if truthy err then
            (if called then mret () else cb err);;
            each self loadQuery exec n vo meta (tl schedule) its
              (delete i running) true cb
          else if bool_decide (its = []) && bool_decide (delete i running = [])
               then if called then mret () else cb Null
               else each self loadQuery exec n vo meta (tl schedule) its
                      (delete i running) called cb
      end in
    result m h = inr () → resolved h its running called (trace m h))
    as Hfinish.
  { intros k Hr i m. subst m.
    destruct (running !! i) as [[[item q] m]|] eqn:Hx.
    2:{ intros _. destruct running as [|x running].
        - destruct Hr as [?|[Hi Hc]]; [done|]. subst its called.
          apply (resolved_end h true).
        - apply lookup_ge_None in Hx.
          pose proof (Nat.mod_upper_bound k (length (x :: running))) as Hlt.
          subst i. simpl in *. lia. }
    assert (length (delete i running) + 1 = length running) as Hlen.
    { apply lookup_lt_Some in Hx as Hlt. rewrite length_delete by eauto. lia. }
    pose proof (items_delete running i item q m Hx) as Hperm.
    assert (NoDup (its ++ items (delete i running))) as Hnd'.
    { rewrite Hperm in Hnd. apply NoDup_app in Hnd as (Hn1 & Hn2 & Hn3).
      apply NoDup_cons in Hn3 as [_ Hn3]. apply NoDup_app. split; [done|].
      split; [|done]. intros x Hx1 Hx2. apply (Hn2 x Hx1).
      by apply list_elem_of_further. }
    assert (∀ item' q' m', (item', q', m') ∈ delete i running →
              target q' = tgt item') as Hrun'.
    { intros item' q' m' Hin. apply (Hrun item' q' m').
      rewrite (delete_Permutation running i _ Hx).
      by apply list_elem_of_further. }
    assert (target q = tgt item) as Htgt.
    { apply (Hrun item q m). by eapply list_elem_of_lookup_2. }
    rewrite trace_bind, result_bind.
    destruct (belongsTo_finish_resolved item q m h)
      as (err & val & new & -> & Hfin).
    destruct (truthy err) eqn:Herr.
    - (* with an error *)
      destruct Hfin as [-> ->]. rewrite Herr.
      rewrite trace_bind, result_bind.
      match goal with
      | |- context [trace ?c (h ++ new)] =>
          assert (trace c (h ++ new)
                    = (if called then [] else [Callback err Undef]) ∧
                  result c (h ++ new) = inr () ∧
                  store_after c (h ++ new) = h ++ new) as (-> & -> & ->)
      end.
      { destruct called; [done|]. unfold trace, result, store_after.
        by rewrite Hcb. }
      intros Hres'. cbn [app].
      apply (resolved_failed i item q m err val new); try done.
      apply IH; try done; [lia|by right; right|].
      eapply persist_trans; [exact Hh|apply persist_app].
    - (* without an error *)
      destruct Hfin as (lval & -> & Hlval & -> & ->).
      cbn [truthy]. rewrite Htgt. intros Hres'. cbn [app].
      apply (resolved_completed i item q m err lval new); try done.
      apply Hnext; try done; [lia|].
      eapply persist_trans; [exact Hh|].
      eapply persist_trans; [apply persist_app|apply persist_set]. }
  cbn [each] in Hres |- *. destruct its as [|item its].
  { apply Hfinish; [|done]. destruct Hlive as [?|[?|?]]; [done|by left|by right]. }
  destruct (bool_decide (hd 0 schedule = 0) || bool_decide (running = []))
    eqn:Hgo.
  2:{ apply Hfinish; [|done]. left.
      by apply orb_false_iff in Hgo as [_ H%bool_decide_eq_false]. }
  (* the loop starts an iterator *)
  revert Hres. rewrite trace_bind, result_bind.
  pose proof (belongsTo_start_run meta item h Hh) as Hstart.
  destruct (result (belongsTo_start self loadQuery vo meta item) h) as [x|s];
    [done|].
  apply NoDup_cons in Hnd as Hnd'. cbn [app] in Hnd.
  apply NoDup_cons in Hnd as [Hitem Hnd].
  destruct s as [|q m].
  - (* which calls [next] itself *)
    destruct Hstart as (Hno & -> & ->). intros Hres. cbn [app].
    apply resolved_skip; [done|]. apply Hnext; try done. simpl in Hn. lia.
  - (* which leaves a query running *)
    destruct Hstart as (Hyes & Htgt & Hq & (crit & -> & Hby) & ->).
    intros Hres. cbn [app].
    apply (resolved_exec item q m crit); try done.
    apply Hnext; try done.
    + rewrite length_app. simpl in *. lia.
    + eapply persist_trans; [exact Hh|apply persist_app].
    + unfold items. rewrite map_app. cbn.
      rewrite app_assoc. apply NoDup_app. split; [done|].
      split; [|apply NoDup_singleton].
      intros x Hx ->%list_elem_of_singleton. done.
    + intros item' q' m' [Hin|Hin]%elem_of_app; [by apply (Hrun item' q' m')|].
      by apply list_elem_of_singleton in Hin as [= -> -> ->].
Qed.

End Resolution.

(** *** Until the write *)

(** A timestamp leaves the other properties of the record and the other
    objects of the store as they are. *)
Lemma stamp_run vo lv column date h :
  values vo = Ref lv → (∀ h, (newDate h).1 = h) →
  ∃ h' t d,
    stamp newDate vo column date h = (h', t, inr d) ∧
    persist lv h h' ∧
    Forall (λ e, is_write e = false) t ∧
    ∀ k, column ≠ Some k → get h' (Ref lv) k = get h (Ref lv) k.
Proof.
  intros Hv Hnew. unfold stamp.
  destruct column as [c|]; [|exists h, [], date; by repeat split].
  destruct (String.eqb c ""); cbn [negb];
    [exists h, [], date; by repeat split|].
  rewrite Hv. unfold read, write, mbind, M_bind, reads, writes, call, mret, M_ret.
  cbn [nothing]. cbv beta iota.
  destruct (truthy (get h (Ref lv) c)); cbn [negb];
    [exists h, [], date; by repeat split|].
  assert (∀ k d, Some c ≠ Some k →
            get (set h (Ref lv) c d) (Ref lv) k = get h (Ref lv) k) as Hget.
  { intros k d Hne. apply get_set_ne. congruence. }
  destruct (truthy date).
  - cbv beta iota. eexists _, _, _. split; [done|].
    split; [apply persist_set|]. split; [done|]. intros k. apply Hget.
  - pose proof (Hnew h) as Hsame. destruct (newDate h) as [h' d].
    cbn [fst] in Hsame. subst h'. cbv beta iota.
    eexists _, _, _. split; [done|].
    split; [apply persist_set|]. split; [by repeat constructor|].
    intros k. apply Hget.
Qed.

#[local] Abbreviation createValues' :=
  (createValues self afterCreate newDate serialize cleanValues unserialize
     adapter_create newModel toObject nested_create).

(** What follows the call of the adapter holds no other. *)
Lemma after_adapter_quiet vo (x : val * val) :
  emits_only (λ e, is_write e = false)
    (let '(err, row) := x in
     if truthy err then
       (match err with
        | Ref _ => writes (λ h, set h err "model" (globalId self))
        | _ => mret ()
        end);;
       deliver err Undef
     else
       values ← call (unserialize row) (Unserialize row);
       if bool_decide (keys (collections (assoc vo)) = [])
       then after afterCreate newModel values
       else
         parentModel ← call (newModel values) (NewModel values);
         err ← call (nested_create parentModel (collections (assoc vo)))
                 (NestedCreate parentModel);
         if truthy err then deliver err Undef
         else
           flat ← call (toObject parentModel) (ToObject parentModel);
           after afterCreate newModel flat).
Proof. destruct x as [err row]. unfold after, deliver. emits. Qed.

(** [createValues] with timestamps, [serialize] and [cleanValues] that
    leave the record as it is: the adapter gets the record. *)
Lemma createValues_run vo lv meta h :
  values vo = Ref lv → (∀ h, (newDate h).1 = h) →
  hands_back serialize → hands_back cleanValues →
  ∃ ha before after,
    trace (createValues' vo meta) h =
      before ++
      AdapterCreate (Ref lv) meta (adapter_create (Ref lv) meta ha).2.1
        (adapter_create (Ref lv) meta ha).2.2 :: after ∧
    Forall (λ e, is_write e = false) before ∧
    Forall (λ e, is_write e = false) after ∧
    persist lv h ha ∧
    ∀ k, autoCreatedAt self ≠ Some k → autoUpdatedAt self ≠ Some k →
         get ha (Ref lv) k = get h (Ref lv) k.
Proof.
  intros Hv Hnew Hser Hclean. unfold createValues.
  destruct (stamp_run vo lv (autoCreatedAt self) Undef h Hv Hnew)
    as (h' & t1 & d1 & Hs1 & Hp1 & Hq1 & Hk1).
  destruct (stamp_run vo lv (autoUpdatedAt self) d1 h' Hv Hnew)
    as (ha & t2 & d2 & Hs2 & Hp2 & Hq2 & Hk2).
  rewrite trace_bind. unfold trace at 1, result at 1, store_after at 1.
  rewrite Hs1. cbn [fst snd].
  rewrite trace_bind. unfold trace at 1, result at 1, store_after at 1.
  rewrite Hs2. cbn [fst snd].
  rewrite Hv.
  rewrite trace_bind, trace_call, result_call, store_after_call, Hser.
  cbn [fst snd].
  rewrite trace_bind, trace_call, result_call, store_after_call, Hclean.
  cbn [fst snd].
  rewrite trace_bind, trace_call, result_call, store_after_call.
  exists ha, (t1 ++ t2 ++ [Serialize (Ref lv) (Ref lv);
                           CleanValues (Ref lv) (Ref lv)]).
  eexists. split.
  { rewrite <-!app_assoc. cbn [app]. reflexivity. }
  split.
  { apply Forall_app. split; [done|]. apply Forall_app. split; [done|].
    by repeat constructor. }
  split; [apply after_adapter_quiet|].
  split; [by eapply persist_trans|].
  intros k Hc Hu. rewrite Hk2 by done. by apply Hk1.
Qed.


End PipelineFacts.

(** ** Runs of the pipeline *)

(** A record with an owner to create: the query is started without the
    context given to [create], the owner's primary key replaces the
    payload in the caller's record before validation, and the adapter
    gets the context. *)
Example create_pet_run :
  Create.trace
    (create_pet accept accept (Create.Ref 0) (Create.Fun "done")
       (Create.Str "ctx") []) pet_store =
  [Create.CallDefault "uuid" (Create.Ref 0) (Create.Str "made");
   Create.ValuesParser (Create.Ref 0)
     (Create.Associations [("owner", Create.Ref 2)] []);
   Create.ReduceAssociations (Create.Ref 0) (Create.Ref 0);
   Create.CastRun (Create.Ref 0) (Create.Ref 0);
   Create.Exec "owner"
     (Create.CreateOne (Create.Model "user" "id") (Create.Ref 2)) None;
   Create.Completed "owner" Create.Null (Create.Ref 6);
   Create.Validate (Create.Ref 0) Create.Null;
   Create.BeforeCreate (Create.Ref 0) Create.Null;
   Create.Serialize (Create.Ref 0) (Create.Ref 0);
   Create.CleanValues (Create.Ref 0) (Create.Ref 0);
   Create.AdapterCreate (Create.Ref 0) (Create.Str "ctx") Create.Null
     (Create.Ref 0);
   Create.Unserialize (Create.Ref 0) (Create.Ref 0);
   Create.AfterCreate (Create.Ref 0) Create.Null;
   Create.NewModel (Create.Ref 0) (Create.Ref 0);
   Create.Callback Create.Null (Create.Ref 0)] ∧
  Create.store_after
    (create_pet accept accept (Create.Ref 0) (Create.Fun "done")
       (Create.Str "ctx") []) pet_store !! 0 =
  Some (Create.Object Plain
          [("name", Create.Str "a"); ("owner", Create.Num 7);
           ("kind", Create.Str "cat"); ("tags", Create.Ref 4);
           ("id", Create.Str "made")]).
Proof. split; reflexivity. Qed.

(** A before-create hook that rejects: its error goes to the caller and
    the adapter is not called. *)
Example create_pet_rejected :
  Create.trace
    (create_pet accept reject (Create.Ref 0) (Create.Fun "done")
       Create.Undef []) pet_store =
  [Create.CallDefault "uuid" (Create.Ref 0) (Create.Str "made");
   Create.ValuesParser (Create.Ref 0)
     (Create.Associations [("owner", Create.Ref 2)] []);
   Create.ReduceAssociations (Create.Ref 0) (Create.Ref 0);
   Create.CastRun (Create.Ref 0) (Create.Ref 0);
   Create.Exec "owner"
     (Create.CreateOne (Create.Model "user" "id") (Create.Ref 2)) None;
   Create.Completed "owner" Create.Null (Create.Ref 6);
   Create.Validate (Create.Ref 0) Create.Null;
   Create.BeforeCreate (Create.Ref 0) (Create.Str "rejected");
   Create.Callback (Create.Str "rejected") Create.Undef].
Proof. reflexivity. Qed.


(** C4 on a concrete call: [create] is given the context ["ctx"]; the
    adapter receives it, the query for the owner does not. *)
Lemma context_not_forwarded_to_queries :
  let t := Create.trace
             (create_pet accept accept (Create.Ref 0) (Create.Fun "done")
                (Create.Str "ctx") []) pet_store in
  t !! 4 = Some (Create.Exec "owner"
                   (Create.CreateOne (Create.Model "user" "id") (Create.Ref 2))
                   None) ∧
  t !! 10 = Some (Create.AdapterCreate (Create.Ref 0) (Create.Str "ctx")
                    Create.Null (Create.Ref 0)).
Proof. split; reflexivity. Qed.


(** C9, as stated, fails on an array with an [undefined] entry: the
    array handed to [createEach] has one entry, the given one two. *)
Lemma create_drops_undefined_entries :
  let run := create_pet accept accept (Create.Ref 0) (Create.Fun "done")
               Create.Undef [] in
  Create.isArray batch_store (Create.Ref 0) = true ∧
  Create.elements batch_store (Create.Ref 0) = [Create.Ref 1; Create.Undef] ∧
  Create.trace run batch_store =
    [Create.CreateEach (Create.Ref 2) (Create.Fun "done") Create.Undef
       Create.Undef] ∧
  Create.elements (Create.store_after run batch_store) (Create.Ref 2) =
    [Create.Ref 1].
Proof. repeat split; reflexivity. Qed.

Lemma create_keeps_truthy_entries_witness :
  Create.isArray batch_store (Create.Ref 0) = true ∧
  let kept := List.filter Create.truthy
                (Create.elements batch_store (Create.Ref 0)) in
  let batch := Create.alloc batch_store (Create.array_of kept) in
  Create.elements batch.1 batch.2 = kept ∧
  create_pet accept accept (Create.Ref 0) (Create.Fun "done") Create.Undef []
    batch_store =
  (batch.1,
   [Create.CreateEach batch.2 (Create.Fun "done") Create.Undef Create.Undef],
   Create.Delegated Create.Undef).
Proof.
  split; [reflexivity|].
  unfold create_pet.
  apply (create_keeps_truthy_entries pet _ _ _ _ _ _ _ _ _ _ _ _ _ _ _ _ _
           (λ v cb m h, (h, Create.Undef))).
  reflexivity.
Defined.



Lemma create_writes_defaults_into_input_witness :
  let made := λ (f : string) (this : Create.val) (h : Create.heap),
                (h, Create.Str "made") in
  let run := create_pet accept accept (Create.Ref 0) (Create.Fun "done")
               Create.Undef [] in
  pure_factories made ∧
  NoDup (keys (Create.attributes pet)) ∧
  defaults_in_store pet_store 0 (Create.attributes pet) ∧
  Create.get pet_store (Create.Ref 0) "kind" = Create.Undef ∧
  ∃ h1 setup rest,
    Create.trace run pet_store =
      setup ++ Create.ValuesParser (Create.Ref 0)
                 (Create.Associations
                    [("owner", Create.get h1 (Create.Ref 0) "owner")] []) :: rest ∧
    Create.get h1 (Create.Ref 0) "kind" = Create.Str "cat".
Proof.
  intros made run.
  assert (pure_factories made) as Hpure by done.
  assert (NoDup (keys (Create.attributes pet))) as Hnd.
  { apply (bool_decide_unpack _). by vm_compute. }
  assert (defaults_in_store pet_store 0 (Create.attributes pet)) as Hin.
  { intros key declaration ld Hkd Hd. cbn in Hkd.
    repeat (apply elem_of_cons in Hkd as [[= -> ->]|Hkd];
            [cbn in Hd;
             first [done|injection Hd as <-; split; [lia|by eexists]]|]).
    by apply elem_of_nil in Hkd. }
  split; [done|]. split; [done|]. split; [done|]. split; [done|].
  assert (Plain ≠ Arr) as Hkind by done.
  destruct (create_writes_defaults_into_input pet made
              (λ values h,
                 (h, Create.Associations
                       [("owner", Create.get h values "owner")] []))
              same same (λ _, Create.Model "user" "id") resolve
              accept accept accept (λ h, (h, Create.Str "now"))
              same same same (λ v m h, (h, (Create.Null, v))) same same
              (λ p c h, (h, Create.Null)) (λ v cb m h, (h, Create.Undef))
              0 _ "done" Create.Undef [] pet_store Hpure Hnd eq_refl Hkind Hin)
    as (h1 & o1 & setup & rest & Ht & _ & _ & _ & Hattrs & _).
  exists h1, setup, rest. split; [exact Ht|].
  destruct (Hattrs "kind" [("defaultsTo", Create.Str "cat")])
    as (x & _ & Hx & Hval).
  { apply list_elem_of_further, list_elem_of_here. }
  { done. }
  cbn in Hval. by subst x.
Defined.

